(** * MathJax-src: the symbol-map handler and the semantics nodes

    A shallow embedding of
    - [src/mathjax3-ts/input/tex/map_handler.ts] (classes [MapHandler] and
      [Configuration]), and
    - [src/v3/MmlTree/ts/MmlNodes/semantics.ts] (classes [MmlSemantics],
      [MmlAnnotationXML] and [MmlAnnotation]),
    followed by the properties of the specification that concern them.
    Of [MapHandler], the methods [allMaps] and [toString], which only list
    what the handler holds, are left out. *)

From stdpp Require Import gmap strings list.


(** ** Completion of a JavaScript call *)

(** A call either returns a value or throws one. *)
Inductive Outcome (E A : Type) : Type :=
  | Throw (e : E)
  | Return (a : A).
Arguments Throw {E A} e.
Arguments Return {E A} a.

(** ** The types of [types.js] and [symbol_map.js] *)

(** Modelled from the spec: [types.js] is not among the sources.  The type
    [Configurations] is the fixed enumeration of the four categories, the
    four keys that [MapHandler.configure] reads. *)
Inductive Configurations : Type :=
  | delimiter
  | character
  | macro
  | environment.

#[global] Instance Configurations_eq_dec : EqDecision Configurations.
Proof. solve_decision. Defined.

Definition Configurations_code (k : Configurations) : nat :=
  match k with
  | delimiter => 0
  | character => 1
  | macro => 2
  | environment => 3
  end.

Definition Configurations_of_code (n : nat) : Configurations :=
  match n with
  | 0 => delimiter
  | 1 => character
  | 2 => macro
  | _ => environment
  end.

#[global] Instance Configurations_countable : Countable Configurations.
Proof.
  apply (inj_countable' Configurations_code Configurations_of_code).
  intros k. destruct k; reflexivity.
Defined.

(** The argument of [configure] and [append], of TypeScript type
    [{ [P in Configurations]? : string[] }]: every key is optional. *)
Definition Config : Type := Configurations -> option (list string).

(** [{}] *)
Definition no_config : Config := fun _ => None.

(** [{k: names}] *)
Definition only (k : Configurations) (names : list string) : Config :=
  fun k' => if decide (k' = k) then Some names else None.

(** Modelled from the spec: [types.js] is not among the sources.  A
    [ParseResult] is a constructed or updated AST fragment (an object), or
    absent ([null] or [undefined]). *)
Inductive ParseResult (Fragment : Type) : Type :=
  | absent
  | result (r : Fragment).
Arguments absent {Fragment}.
Arguments result {Fragment} r.

(** The test [if (result)]: an object is truthy, [null] and [undefined] are
    falsy. *)
Definition truthy {Fragment : Type} (r : ParseResult Fragment) : bool :=
  match r with
  | absent => false
  | result _ => true
  end.

(** ** The state and its monad *)

Section MapHandler.
Context {ParseInput T Fragment Err Ext : Type}.

(** Modelled from the spec: [symbol_map.js] is not among the sources.  A
    symbol map is an object with the capabilities [getName], [contains],
    [lookup] and [parse].  Its methods are code outside these sources: they
    see the state [Ext] that lives outside the handler (the tables of the
    maps, the parser and its stack, which a [ParseInput] refers to).
    [contains] and [lookup] answer a question and never raise; [parse] may
    change that state, and it returns a [ParseResult], absent when the map
    does not apply, or throws an error of type [Err] on input that it
    recognises but cannot process.  No method calls back into the
    handler. *)
Record SymbolMap : Type := mkSymbolMap {
  getName : string;
  contains : string -> Ext -> bool;
  lookup : string -> Ext -> option T;
  parse : ParseInput -> Ext -> Outcome Err (ParseResult Fragment) * Ext
}.

(** [class Configuration]: its one field, the array [configuration]. *)
Record Configuration : Type := mkConfiguration {
  configuration : list SymbolMap
}.

(** [class MapHandler]: its two fields, both JavaScript [Map]s. *)
Record MapHandler : Type := mkMapHandler {
  configurations : gmap Configurations Configuration;
  maps : gmap string SymbolMap
}.

(** What a method of the handler can throw: the [TypeError] of a method
    called on [undefined], or whatever a symbol map raised. *)
Inductive Thrown : Type :=
  | TypeError
  | Raised (e : Err).

(** The state the code runs in.  The constructor of [MapHandler] is private
    and [getInstance] builds one handler on first use, so [instance] is the
    handler every method runs on, and the one that
    [MapHandler.getInstance()] yields inside [Configuration.add].
    [console] is what [console.log] has printed, oldest line first. *)
Record World : Type := mkWorld {
  instance : MapHandler;
  console : list string;
  ext : Ext
}.

Definition set_configurations
    (f : gmap Configurations Configuration -> gmap Configurations Configuration)
    (w : World) : World :=
  mkWorld (mkMapHandler (f (configurations (instance w))) (maps (instance w)))
          (console w) (ext w).

Definition set_maps (f : gmap string SymbolMap -> gmap string SymbolMap)
    (w : World) : World :=
  mkWorld (mkMapHandler (configurations (instance w)) (f (maps (instance w))))
          (console w) (ext w).

Definition set_console (f : list string -> list string) (w : World) : World :=
  mkWorld (instance w) (f (console w)) (ext w).

Definition set_ext (e : Ext) (w : World) : World :=
  mkWorld (instance w) (console w) e.

(** A computation reads and writes the state, and returns or throws; what
    it wrote before throwing stays written. *)
Definition M (A : Type) : Type := World -> Outcome Thrown A * World.

#[global] Instance M_ret : MRet M := fun A a w => (Return a, w).

#[global] Instance M_bind : MBind M := fun A B f m w =>
  match m w with
  | (Return a, w') => f a w'
  | (Throw e, w') => (Throw e, w')
  end.

Definition gets {A : Type} (f : World -> A) : M A := fun w => (Return (f w), w).

Definition modify (f : World -> World) : M unit := fun w => (Return tt, f w).

Definition throw {A : Type} (e : Thrown) : M A := fun w => (Throw e, w).

(** A call of a method of a symbol map that may change the outside state
    and may throw. *)
Definition call {A : Type} (f : Ext -> Outcome Err A * Ext) : M A := fun w =>
  match f (ext w) with
  | (Return a, e) => (Return a, set_ext e w)
  | (Throw x, e) => (Throw (Raised x), set_ext e w)
  end.

(** A call of a method of a symbol map that only reads the outside state. *)
Definition ask {A : Type} (f : Ext -> A) : M A := gets (fun w => f (ext w)).

(** ** [class MapHandler], first part: the store of maps *)

(** [register(map)]: [this.maps.set(map.getName(), map)]. *)
Definition MapHandler_register (map : SymbolMap) : M unit :=
  modify (set_maps <[getName map := map]>).

(** [getMap(name)]: [this.maps.get(name)], [None] for [undefined]. *)
Definition MapHandler_getMap (name : string) : M (option SymbolMap) :=
  gets (fun w => maps (instance w) !! name).

(** ** [class Configuration] *)

(** [warn(message)]: [console.log('TexParser Warning: ' + message)]. *)
Definition Configuration_warn (message : string) : M unit :=
  modify (set_console (fun out => out ++ ["TexParser Warning: " +:+ message])).

(** [this.configuration.push(map)] *)
Definition push (this : Configuration) (map : SymbolMap) : Configuration :=
  mkConfiguration (configuration this ++ [map]).

(** [add(name)].  The array of [this] is changed in place in the source;
    here the changed configuration is returned. *)
Definition Configuration_add (name : string) (this : Configuration)
    : M Configuration :=
  map ← MapHandler_getMap name;
  match map with
  | None =>
      Configuration_warn ("Configuration " +:+ name +:+ " not found! Omitted.");;
      mret this
  | Some map => mret (push this map)
  end.

(** The loop [for (const name of maps) { this.add(name); }]. *)
Fixpoint Configuration_add_each (names : list string) (this : Configuration)
    : M Configuration :=
  match names with
  | [] => mret this
  | name :: names' =>
      this' ← Configuration_add name this;
      Configuration_add_each names' this'
  end.

(** [constructor(maps)], on the field initialised to the empty array. *)
Definition Configuration_constructor (names : list string) : M Configuration :=
  Configuration_add_each names (mkConfiguration []).

(** The loop of [parse] over the rest of the array. *)
Fixpoint Configuration_parse_from (rest : list SymbolMap) (input : ParseInput)
    : M (ParseResult Fragment) :=
  match rest with
  | [] => mret absent
  | map :: rest' =>
      result ← call (parse map input);
      if truthy result then mret result
      else Configuration_parse_from rest' input
  end.

(** [parse(input)] *)
Definition Configuration_parse (input : ParseInput) (this : Configuration)
    : M (ParseResult Fragment) :=
  Configuration_parse_from (configuration this) input.

(** The loop of [applicable] over the rest of the array. *)
Fixpoint Configuration_applicable_from (rest : list SymbolMap) (symbol : string)
    : M (option SymbolMap) :=
  match rest with
  | [] => mret None
  | map :: rest' =>
      found ← ask (contains map symbol);
      if found : bool then mret (Some map)
      else Configuration_applicable_from rest' symbol
  end.

(** [applicable(symbol)] *)
Definition Configuration_applicable (symbol : string) (this : Configuration)
    : M (option SymbolMap) :=
  Configuration_applicable_from (configuration this) symbol.

(** [lookup(symbol)]: [map ? map.lookup(symbol) : null]. *)
Definition Configuration_lookup (symbol : string) (this : Configuration)
    : M (option T) :=
  map ← Configuration_applicable symbol this;
  match map with
  | Some map => ask (lookup map symbol)
  | None => mret None
  end.

(** [contains(symbol)]: [this.applicable(symbol) ? true : false]. *)
Definition Configuration_contains (symbol : string) (this : Configuration)
    : M bool :=
  map ← Configuration_applicable symbol this;
  mret (match map with Some _ => true | None => false end).

(** [toString()]: the names of the maps, in order, joined by [', ']. *)
Definition Configuration_toString (this : Configuration) : string :=
  String.concat ", " (getName <$> configuration this).

(** ** [class MapHandler], second part *)

(** [this.configurations.get(kind)], as the receiver of a method call: the
    call is a [TypeError] when the [Map] has no entry for [kind]. *)
Definition MapHandler_configuration (kind : Configurations) : M Configuration :=
  c ← gets (fun w => configurations (instance w) !! kind);
  match c with
  | Some c => mret c
  | None => throw TypeError
  end.

(** [configure_(config, name)]:
    [this.configurations.set(name, new Configuration(config || []))]. *)
Definition MapHandler_configure_ (config : option (list string))
    (name : Configurations) : M unit :=
  c ← Configuration_constructor (default [] config);
  modify (set_configurations <[name := c]>).

(** The loop of [append_]:
    [for (const map of config) { this.configurations.get(name).add(map); }]. *)
Fixpoint MapHandler_append_each (config : list string) (name : Configurations)
    : M unit :=
  match config with
  | [] => mret tt
  | map :: config' =>
      c ← MapHandler_configuration name;
      c' ← Configuration_add map c;
      modify (set_configurations <[name := c']>);;
      MapHandler_append_each config' name
  end.

(** [append_(config, name)] *)
Definition MapHandler_append_ (config : option (list string))
    (name : Configurations) : M unit :=
  match config with
  | None => mret tt
  | Some config => MapHandler_append_each config name
  end.

(** [configure(config)] *)
Definition MapHandler_configure (config : Config) : M unit :=
  MapHandler_configure_ (config delimiter) delimiter;;
  MapHandler_configure_ (config character) character;;
  MapHandler_configure_ (config macro) macro;;
  MapHandler_configure_ (config environment) environment.

(** [append(config)] *)
Definition MapHandler_append (config : Config) : M unit :=
  MapHandler_append_ (config delimiter) delimiter;;
  MapHandler_append_ (config character) character;;
  MapHandler_append_ (config macro) macro;;
  MapHandler_append_ (config environment) environment.

(** [parse(kind, input)] *)
Definition MapHandler_parse (kind : Configurations) (input : ParseInput)
    : M (ParseResult Fragment) :=
  c ← MapHandler_configuration kind;
  Configuration_parse input c.

(** [lookup(kind, symbol)] *)
Definition MapHandler_lookup (kind : Configurations) (symbol : string)
    : M (option T) :=
  c ← MapHandler_configuration kind;
  Configuration_lookup symbol c.

(** [contains(kind, symbol)] *)
Definition MapHandler_contains (kind : Configurations) (symbol : string)
    : M bool :=
  c ← MapHandler_configuration kind;
  Configuration_contains symbol c.

(** The private [constructor()]: the two fields start as empty [Map]s, then
    [this.configure({})] runs.  No configuration it builds has a name to
    add, so [Configuration.add] and its [getInstance()] are not reached
    while the handler is under construction. *)
Definition MapHandler_constructor (out : list string) (e : Ext) : World :=
  snd (MapHandler_configure no_config (mkWorld (mkMapHandler ∅ ∅) out e)).

(** The program seen from the static field [MapHandler.instance]: the
    field is unset until the first call of [getInstance], which finds the
    console and the outside state as they are then; afterwards it holds the
    handler of the state. *)
Inductive Static : Type :=
  | unset (out : list string) (e : Ext)
  | created (w : World).

(** [getInstance()] *)
Definition MapHandler_getInstance (s : Static) : World :=
  match s with
  | unset out e => MapHandler_constructor out e
  | created w => w
  end.

End MapHandler.

Arguments SymbolMap : clear implicits.
Arguments Configuration : clear implicits.
Arguments MapHandler : clear implicits.
Arguments World : clear implicits.
Arguments Thrown : clear implicits.
Arguments Static : clear implicits.

(** ** Notions for the properties of the handler *)

Section Readings.
Context {ParseInput T Fragment Err Ext : Type}.

(** The maps of [ms], asked in order to parse [input], all return absent;
    [declines] gives the outside state they leave, and [None] as soon as
    one of them returns a result or throws. *)
Fixpoint declines (ms : list (SymbolMap ParseInput T Fragment Err Ext))
    (input : ParseInput) (e : Ext) : option Ext :=
  match ms with
  | [] => Some e
  | m :: ms' =>
      match parse m input e with
      | (Return absent, e') => declines ms' input e'
      | _ => None
      end
  end.

(** The maps that the names of a list resolve to in a store, in the order
    of the list, the names that the store does not have left out. *)
Definition resolve (store : gmap string (SymbolMap ParseInput T Fragment Err Ext))
    (names : list string) : list (SymbolMap ParseInput T Fragment Err Ext) :=
  omap (fun name => store !! name) names.

(** The line that [Configuration.add] prints for a name it does not find. *)
Definition warning (name : string) : string :=
  "TexParser Warning: " +:+ "Configuration " +:+ name +:+ " not found! Omitted.".

(** The lines printed for a list of names, in order. *)
Definition warnings (store : gmap string (SymbolMap ParseInput T Fragment Err Ext))
    (names : list string) : list string :=
  omap (fun name => match store !! name with
                    | None => Some (warning name)
                    | Some _ => None
                    end) names.

(** The configuration that [new Configuration(config[kind] || [])] builds
    from a store. *)
Definition built (store : gmap string (SymbolMap ParseInput T Fragment Err Ext))
    (config : Config) (kind : Configurations)
    : Configuration ParseInput T Fragment Err Ext :=
  mkConfiguration (resolve store (default [] (config kind))).

(** The lines that building it prints. *)
Definition complaints (store : gmap string (SymbolMap ParseInput T Fragment Err Ext))
    (config : Config) (kind : Configurations) : list string :=
  warnings store (default [] (config kind)).

(** What a client of the module can do with the handler, and what else can
    happen to the state around it. *)
Inductive Op : Type :=
  | Register (map : SymbolMap ParseInput T Fragment Err Ext)
  | Configure (config : Config)
  | Append (config : Config)
  | Parse (kind : Configurations) (input : ParseInput)
  | Lookup (kind : Configurations) (symbol : string)
  | Contains (kind : Configurations) (symbol : string)
  | Outside (out : list string) (e : Ext).

(** The state after an operation, whether it returned or threw. *)
Definition step (op : Op) (w : World ParseInput T Fragment Err Ext)
    : World ParseInput T Fragment Err Ext :=
  match op with
  | Register map => snd (MapHandler_register map w)
  | Configure config => snd (MapHandler_configure config w)
  | Append config => snd (MapHandler_append config w)
  | Parse kind input => snd (MapHandler_parse kind input w)
  | Lookup kind symbol => snd (MapHandler_lookup kind symbol w)
  | Contains kind symbol => snd (MapHandler_contains kind symbol w)
  | Outside out e => set_ext e (set_console (fun _ => out) w)
  end.

(** The states of the handler over its lifetime: the one that
    [getInstance] constructs on first use, and those that operations lead
    to from there. *)
Inductive reachable : World ParseInput T Fragment Err Ext -> Prop :=
  | reachable_new (out : list string) (e : Ext) :
      reachable (MapHandler_getInstance (unset out e))
  | reachable_step (op : Op) (w : World ParseInput T Fragment Err Ext) :
      reachable w -> reachable (step op w).

(** Every map of the store is kept under its own name. *)
Definition named (w : World ParseInput T Fragment Err Ext) : Prop :=
  forall (name : string) (m : SymbolMap ParseInput T Fragment Err Ext),
    maps (instance w) !! name = Some m -> getName m = name.

(** Every category has a configuration. *)
Definition configured (w : World ParseInput T Fragment Err Ext) : Prop :=
  forall kind : Configurations, is_Some (configurations (instance w) !! kind).

End Readings.

(** ** The semantics nodes of [semantics.ts] *)

(** Modelled from the spec: [../Node] is not among the sources.  A
    [Property] is a value of a property list; [null], booleans and strings
    are the ones that [semantics.ts] writes. *)
Inductive Property : Type :=
  | PNull
  | PBool (b : bool)
  | PString (s : string).

#[global] Instance Property_eq_dec : EqDecision Property.
Proof. solve_decision. Defined.

(** [PropertyList], an object used as a table from names to properties. *)
Abbreviation PropertyList := (gmap string Property).

(** The classes of [semantics.ts] and the two classes of [../MmlNode] that
    they extend. *)
Inductive Class : Type :=
  | AMmlNode
  | AMmlBaseNode
  | MmlSemantics
  | MmlAnnotationXML
  | MmlAnnotation.

(** Objects live in a heap and are known by their address: two references
    are to the same object when the addresses are equal.  [new] and an
    object literal take the next free address. *)
Abbreviation loc := nat.

Abbreviation Heap := (list PropertyList).

Definition alloc (o : PropertyList) (h : Heap) : loc * Heap :=
  (length h, h ++ [o]).

(** [o[key] = v] on the object at address [l]. *)
Definition assign (l : loc) (key : string) (v : Property) (h : Heap) : Heap :=
  alter <[key := v]> l h.

(** A node: its class and the fields that hold a property list, each by
    the address of the object. *)
Record Node : Type := mkNode {
  class : Class;
  fields : gmap string loc
}.

(** The bag has every entry of the list, under the same name and with the
    same value. *)
Definition holds (bag : PropertyList) (entries : list (string * Property)) : bool :=
  forallb (fun '(key, v) => bool_decide (bag !! key = Some v)) entries.

(** The defaults that [MmlAnnotationXML] declares, and the marker of
    [MmlAnnotation]. *)
Definition annotation_defaults : list (string * Property) :=
  [("definitionUrl", PNull); ("encoding", PNull);
   ("cd", PString "mathmlkeys"); ("name", PString ""); ("src", PNull)].

Definition marker : list (string * Property) := [("isChars", PBool true)].

(** The property lists of a node, over all its fields. *)
Definition bags (n : Node) (h : Heap) : list PropertyList :=
  omap (fun '(_, l) => h !! l) (map_to_list (fields n)).

(** The property list in a field of a node. *)
Definition bag_in (field : string) (n : Node) (h : Heap) : option PropertyList :=
  l ← fields n !! field; h !! l.

(** Some property list of the node holds the five defaults and the marker. *)
Definition has_defaults_and_marker (n : Node) (h : Heap) : bool :=
  existsb (fun bag => holds bag (annotation_defaults ++ marker)) (bags n h).

Section Semantics.

(** The tables [AMmlNode.defaults] and [AMmlBaseNode.defaults] as they are
    when [semantics.ts] is loaded, and the getters that the two classes
    answer, their own and inherited ones: [../MmlNode] is not among the
    sources. *)
Variables AMmlNode_defaults AMmlBaseNode_defaults : PropertyList.
Variables AMmlNode_getter AMmlBaseNode_getter : string -> option Property.

(** The [extends] clauses. *)
Definition extends (c : Class) : option Class :=
  match c with
  | MmlSemantics => Some AMmlBaseNode
  | MmlAnnotationXML => Some AMmlNode
  | MmlAnnotation => Some MmlAnnotationXML
  | AMmlNode | AMmlBaseNode => None
  end.

(** The getters a class declares in its own body. *)
Definition own_getter (c : Class) (name : string) : option Property :=
  match c with
  | MmlSemantics =>
      if decide (name = "kind") then Some (PString "semantics")
      else if decide (name = "notParent") then Some (PBool true)
      else None
  | MmlAnnotationXML =>
      if decide (name = "kind") then Some (PString "annotation-xml")
      else if decide (name = "linebreakContainer") then Some (PBool true)
      else None
  | MmlAnnotation => None
  | AMmlNode => AMmlNode_getter name
  | AMmlBaseNode => AMmlBaseNode_getter name
  end.

(** Reading a getter on an instance of a class: the class's own, else the
    one of the class it extends.  No class here is more than [depth]
    [extends] clauses away from a class of [../MmlNode]. *)
Fixpoint getter_within (depth : nat) (c : Class) (name : string) : option Property :=
  match own_getter c name with
  | Some v => Some v
  | None =>
      match depth, extends c with
      | S depth', Some parent => getter_within depth' parent name
      | _, _ => None
      end
  end.

Definition getter (c : Class) (name : string) : option Property :=
  getter_within 2 c name.

(** The static fields [defaults] once [semantics.ts] is loaded: the
    addresses of the two objects that its [static defaults] lines build. *)
Record Statics : Type := mkStatics {
  MmlSemantics_defaults : loc;
  MmlAnnotationXML_defaults : loc
}.

(** Loading [semantics.ts]: each [static defaults] line evaluates an object
    literal, a new object that starts with a copy of the entries of the
    table spread into it. *)
Definition load (h : Heap) : Statics * Heap :=
  let (s, h1) :=
    alloc (<["encoding" := PNull]>
           (<["definitionUrl" := PNull]> AMmlBaseNode_defaults)) h in
  let (x, h2) :=
    alloc (<["src" := PNull]>
           (<["name" := PString ""]>
           (<["cd" := PString "mathmlkeys"]>
           (<["encoding" := PNull]>
           (<["definitionUrl" := PNull]> AMmlNode_defaults))))) h1 in
  (mkStatics s x, h2).

(** [C.defaults] for a class of [semantics.ts]: [MmlAnnotation] declares no
    static field, so the name resolves to the field of the class it
    extends, the same object. *)
Definition defaults (st : Statics) (c : Class) : option loc :=
  match c with
  | MmlSemantics => Some (MmlSemantics_defaults st)
  | MmlAnnotationXML | MmlAnnotation => Some (MmlAnnotationXML_defaults st)
  | AMmlNode | AMmlBaseNode => None
  end.

(** The name of the field in which the constructor of [AMmlNode] keeps the
    property bag of an instance; the spec does not give it. *)
Variable bagField : string.

(** Modelled from the spec: the constructor of [AMmlNode], in [../MmlNode],
    is not among the sources.  Instantiating a node copies the kind's
    resolved default table into a fresh, mutable per-instance property
    bag. *)
Definition AMmlNode_constructor (st : Statics) (c : Class) (h : Heap) : Node * Heap :=
  let table := default ∅ (d ← defaults st c; h !! d) in
  let (bag, h') := alloc table h in
  (mkNode c {[ bagField := bag ]}, h').

(** [new MmlAnnotationXML()]: the class has no constructor and no field of
    its own. *)
Definition new_MmlAnnotationXML (st : Statics) (h : Heap) : Node * Heap :=
  AMmlNode_constructor st MmlAnnotationXML h.

(** [new MmlAnnotation()]: the inherited constructor runs, then the field
    initialiser [properties = {isChars: true}] assigns a new object to the
    field [properties]. *)
Definition new_MmlAnnotation (st : Statics) (h : Heap) : Node * Heap :=
  let (this, h1) := AMmlNode_constructor st MmlAnnotation h in
  let (o, h2) := alloc {[ "isChars" := PBool true ]} h1 in
  (mkNode (class this) (<["properties" := o]> (fields this)), h2).

End Semantics.

(** ** Maps to run the handler on *)

(** A parse input is the symbol, values and fragments are strings, an error
    is its message, and the outside state is the list of the names of the
    maps whose [parse] has run, oldest first. *)
Abbreviation DemoMap := (SymbolMap string string string string (list string)).
Abbreviation DemoWorld := (World string string string string (list string)).

Definition demo (name : string) (has : string -> bool)
    (value : string -> option string)
    (act : string -> Outcome string (ParseResult string)) : DemoMap :=
  mkSymbolMap name (fun symbol _ => has symbol) (fun symbol _ => value symbol)
              (fun input e => (act input, e ++ [name])).

(** Knows [x] but has neither a value nor a parse result for it. *)
Definition silent : DemoMap :=
  demo "silent" (String.eqb "x") (fun _ => None) (fun _ => Return absent).

(** Maps [x] to [X]. *)
Definition loud : DemoMap :=
  demo "loud" (String.eqb "x")
       (fun symbol => if String.eqb "x" symbol then Some "X" else None)
       (fun input => if String.eqb "x" input then Return (result "X")
                     else Return absent).

(** Knows [x] and fails on it. *)
Definition broken : DemoMap :=
  demo "broken" (String.eqb "x") (fun _ => None) (fun _ => Throw "unterminated").

(** Two maps of the same name, told apart by the value they give [x]. *)
Definition first_greek : DemoMap :=
  demo "greek" (String.eqb "x") (fun _ => Some "old") (fun _ => Return absent).

Definition second_greek : DemoMap :=
  demo "greek" (String.eqb "x") (fun _ => Some "new") (fun _ => Return absent).

(** A map that answers [x] with its own name. *)
Definition signed (name : string) : DemoMap :=
  demo name (String.eqb "x") (fun _ => Some name) (fun _ => Return (result name)).

(** The handler as [getInstance] first builds it. *)
Definition fresh : DemoWorld := MapHandler_getInstance (unset [] []).

(** The handler with a map registered under the name [greek]. *)
Definition with_greek : DemoWorld := step (Register first_greek) fresh.

(** The handler with maps registered under the names [a], [b] and [c]. *)
Definition stocked : DemoWorld :=
  step (Register (signed "c"))
    (step (Register (signed "b")) (step (Register (signed "a")) fresh)).

(** The handler with three maps registered and configured, in the order
    of registration, for the macros. *)
Definition wired : DemoWorld :=
  step (Configure (only macro ["silent"; "broken"; "loud"]))
    (step (Register loud) (step (Register broken) (step (Register silent) fresh))).

(** The handler with the map [silent] registered. *)
Definition with_silent : DemoWorld := step (Register silent) fresh.

(** The handler with the maps [loud] and [silent] registered and [loud]
    configured for the characters. *)
Definition with_loud : DemoWorld :=
  step (Configure (only character ["loud"]))
    (step (Register silent) (step (Register loud) fresh)).

(** The argument whose list, for every category, is the list of the first
    followed by the list of the second. *)
Definition both (first second : Config) : Config :=
  fun kind => Some (default [] (first kind) ++ default [] (second kind)).

(** ** The [Map]s of the handler with their order *)

(** A JavaScript [Map] keeps its entries in the order in which the keys
    were first set, which [keys()] and [values()] follow; the finite maps
    of the state above forget it.  Here a [Map] is the list of its entries
    in that order. *)
Section JsMap.
Context {K V : Type} `{EqDecision K}.

(** [m.set(k, v)]: the value of a key that the [Map] has is replaced where
    it stands, a new key comes last. *)
Fixpoint js_set (k : K) (v : V) (m : list (K * V)) : list (K * V) :=
  match m with
  | [] => [(k, v)]
  | (k', v') :: m' =>
      if decide (k' = k) then (k, v) :: m' else (k', v') :: js_set k v m'
  end.

(** [m.get(k)] *)
Fixpoint js_get (k : K) (m : list (K * V)) : option V :=
  match m with
  | [] => None
  | (k', v') :: m' => if decide (k' = k) then Some v' else js_get k m'
  end.

(** [Array.from(m.keys())] and [Array.from(m.values())] *)
Definition js_keys (m : list (K * V)) : list K := m.*1.

Definition js_values (m : list (K * V)) : list V := m.*2.

End JsMap.

Section Ordered.
Context {ParseInput T Fragment Err Ext : Type}.

(** [register(map)], on the [Map] [this.maps] with its order. *)
Definition register_in_order (map : SymbolMap ParseInput T Fragment Err Ext)
    (store : list (string * SymbolMap ParseInput T Fragment Err Ext))
    : list (string * SymbolMap ParseInput T Fragment Err Ext) :=
  js_set (getName map) map store.

(** [allMaps()]: [Array.from(this.maps.values())]. *)
Definition MapHandler_allMaps
    (store : list (string * SymbolMap ParseInput T Fragment Err Ext))
    : list (SymbolMap ParseInput T Fragment Err Ext) :=
  js_values store.

(** The strings that are the values of the type [Configurations]. *)
Definition Configurations_string (kind : Configurations) : string :=
  match kind with
  | delimiter => "delimiter"
  | character => "character"
  | macro => "macro"
  | environment => "environment"
  end.

(** The string ['\n']. *)
Definition newline : string := String (Ascii.ascii_of_nat 10) "".

(** [toString()] of the handler, on the [Map] [this.configurations] with
    its order: for every key, in order, the line
    [config + ': ' + this.configurations.get(config) + '\n'], in which the
    configuration is turned into a string by its own [toString], and
    [undefined] would be by its name. *)
Definition MapHandler_toString
    (configs : list (Configurations * Configuration ParseInput T Fragment Err Ext))
    : string :=
  fold_left
    (fun str config =>
       str +:+ Configurations_string config +:+ ": "
           +:+ match js_get config configs with
               | Some c => Configuration_toString c
               | None => "undefined"
               end
           +:+ newline)
    (js_keys configs) "".

(** What [configure] does to the [Map] [this.configurations], given the
    configurations it builds: the four calls of [set], in the order of the
    four calls of [configure_]. *)
Definition configure_in_order
    (chains : Configurations -> Configuration ParseInput T Fragment Err Ext)
    (configs : list (Configurations * Configuration ParseInput T Fragment Err Ext))
    : list (Configurations * Configuration ParseInput T Fragment Err Ext) :=
  js_set environment (chains environment)
    (js_set macro (chains macro)
       (js_set character (chains character)
          (js_set delimiter (chains delimiter) configs))).

End Ordered.

(** * Properties of the handler *)

Section Handler_theory.
Context {ParseInput T Fragment Err Ext : Type}.

Implicit Types w : World ParseInput T Fragment Err Ext.
Implicit Types c : Configuration ParseInput T Fragment Err Ext.
Implicit Types m : SymbolMap ParseInput T Fragment Err Ext.
Implicit Types ms pre post : list (SymbolMap ParseInput T Fragment Err Ext).
Implicit Types store : gmap string (SymbolMap ParseInput T Fragment Err Ext).

Local Ltac run :=
  unfold mbind, M_bind, mret, M_ret, gets, modify, throw, ask, call; simpl.

Lemma world_eta w : mkWorld (instance w) (console w) (ext w) = w.
Proof. by destruct w. Qed.

Lemma handler_eta (h : MapHandler ParseInput T Fragment Err Ext) :
  mkMapHandler (configurations h) (maps h) = h.
Proof. by destruct h. Qed.

Lemma configuration_eta c : mkConfiguration (configuration c) = c.
Proof. by destruct c. Qed.

(** *** [Configuration.add] and the constructor *)

Lemma add_found name c w m :
  maps (instance w) !! name = Some m ->
  Configuration_add name c w = (Return (push c m), w).
Proof. intros H. unfold Configuration_add, MapHandler_getMap. run. by rewrite H. Qed.

Lemma add_missing name c w :
  maps (instance w) !! name = None ->
  Configuration_add name c w
  = (Return c, set_console (fun out => out ++ [warning name]) w).
Proof.
  intros H. unfold Configuration_add, MapHandler_getMap, Configuration_warn.
  run. by rewrite H.
Qed.

Lemma add_each_spec names : forall c w,
  Configuration_add_each names c w
  = (Return (mkConfiguration
               (configuration c ++ resolve (maps (instance w)) names)),
     set_console (fun out => out ++ warnings (maps (instance w)) names) w).
Proof.
  induction names as [|name names IH]; intros c w; simpl.
  - run. unfold set_console. rewrite !app_nil_r. by rewrite world_eta, configuration_eta.
  - unfold mbind, M_bind.
    destruct (maps (instance w) !! name) as [m|] eqn:H.
    + rewrite (add_found _ _ _ _ H), IH. simpl. by rewrite <- app_assoc.
    + rewrite (add_missing _ _ _ H), IH. unfold set_console; simpl.
      by rewrite <- app_assoc.
Qed.

(** *** The loop of [Configuration.parse] *)

Lemma set_ext_same w : set_ext (ext w) w = w.
Proof. apply world_eta. Qed.

Lemma parse_from_cons m rest input w :
  Configuration_parse_from (m :: rest) input w
  = match parse m input (ext w) with
    | (Return (result r), e) => (Return (result r), set_ext e w)
    | (Return absent, e) => Configuration_parse_from rest input (set_ext e w)
    | (Throw x, e) => (Throw (Raised x), set_ext e w)
    end.
Proof.
  simpl. run. destruct (parse m input (ext w)) as [[x|[|r]] e]; reflexivity.
Qed.

Lemma parse_from_app pre input : forall w e1 rest,
  declines pre input (ext w) = Some e1 ->
  Configuration_parse_from (pre ++ rest) input w
  = Configuration_parse_from rest input (set_ext e1 w).
Proof.
  induction pre as [|m pre IH]; intros w e1 rest H.
  - simpl in H. injection H as <-. by rewrite set_ext_same.
  - rewrite <- app_comm_cons, parse_from_cons. simpl in H.
    destruct (parse m input (ext w)) as [[x|[|r]] e]; try discriminate.
    by rewrite (IH (set_ext e w) e1 rest H).
Qed.

Lemma parse_from_declines ms input w e1 :
  declines ms input (ext w) = Some e1 ->
  Configuration_parse_from ms input w = (Return absent, set_ext e1 w).
Proof.
  intros H. rewrite <- (app_nil_r ms). by rewrite (parse_from_app _ _ _ _ _ H).
Qed.

Lemma parse_from_absent_inv ms input : forall w w',
  Configuration_parse_from ms input w = (Return absent, w') ->
  declines ms input (ext w) = Some (ext w') /\ w' = set_ext (ext w') w.
Proof.
  induction ms as [|m ms IH]; intros w w' H.
  - injection H as <-. simpl. by rewrite set_ext_same.
  - rewrite parse_from_cons in H. simpl.
    destruct (parse m input (ext w)) as [[x|[|r]] e]; try discriminate.
    destruct (IH _ _ H) as [H1 H2]. split; [exact H1|]. rewrite H2 at 1. reflexivity.
Qed.

Lemma parse_from_result_inv ms input r : forall w w',
  Configuration_parse_from ms input w = (Return (result r), w') ->
  exists pre m post e1,
    ms = pre ++ m :: post /\ declines pre input (ext w) = Some e1 /\
    parse m input e1 = (Return (result r), ext w') /\ w' = set_ext (ext w') w.
Proof.
  induction ms as [|m ms IH]; intros w w' H.
  - discriminate.
  - rewrite parse_from_cons in H.
    destruct (parse m input (ext w)) as [[x|[|r']] e] eqn:Hm; try discriminate.
    + destruct (IH _ _ H) as (pre & m' & post & e1 & -> & Hd & Hp & Hw).
      exists (m :: pre), m', post, e1. simpl. rewrite Hm.
      repeat split; assumption.
    + injection H as -> <-. exists [], m, ms, (ext w). by repeat split.
Qed.

Lemma parse_from_throw_inv ms input x : forall w w',
  Configuration_parse_from ms input w = (Throw x, w') ->
  exists pre m post e1 y,
    ms = pre ++ m :: post /\ declines pre input (ext w) = Some e1 /\
    parse m input e1 = (Throw y, ext w') /\ x = Raised y /\
    w' = set_ext (ext w') w.
Proof.
  induction ms as [|m ms IH]; intros w w' H.
  - discriminate.
  - rewrite parse_from_cons in H.
    destruct (parse m input (ext w)) as [[y|[|r']] e] eqn:Hm; try discriminate.
    + injection H as <- <-. exists [], m, ms, (ext w), y. by repeat split.
    + destruct (IH _ _ H) as (pre & m' & post & e1 & y & -> & Hd & Hp & Hx & Hw).
      exists (m :: pre), m', post, e1, y. simpl. rewrite Hm.
      repeat split; assumption.
Qed.

(** *** The loop of [Configuration.applicable] *)

Lemma applicable_from_find ms symbol w :
  Configuration_applicable_from ms symbol w
  = (Return (find (fun m => contains m symbol (ext w)) ms), w).
Proof.
  induction ms as [|m ms IH]; simpl; [reflexivity|]. run.
  destruct (contains m symbol (ext w)); [reflexivity | exact IH].
Qed.

Lemma find_first {A : Type} (P : A -> bool) (pre : list A) (x : A) (post : list A) :
  Forall (fun y => P y = false) pre -> P x = true ->
  find P (pre ++ x :: post) = Some x.
Proof.
  intros Hpre Hx. induction Hpre as [|y pre Hy _ IH]; simpl.
  - by rewrite Hx.
  - by rewrite Hy.
Qed.

Lemma find_nowhere {A : Type} (P : A -> bool) (l : list A) :
  Forall (fun y => P y = false) l -> find P l = None.
Proof.
  intros H. induction H as [|y l Hy _ IH]; simpl; [reflexivity|]. by rewrite Hy.
Qed.

Lemma lookup_find symbol c w :
  Configuration_lookup symbol c w
  = (Return (match find (fun m => contains m symbol (ext w)) (configuration c) with
             | Some m => lookup m symbol (ext w)
             | None => None
             end), w).
Proof.
  unfold Configuration_lookup, Configuration_applicable, mbind, M_bind.
  rewrite applicable_from_find.
  by destruct (find _ (configuration c)).
Qed.

Lemma contains_find symbol c w :
  Configuration_contains symbol c w
  = (Return (match find (fun m => contains m symbol (ext w)) (configuration c) with
             | Some _ => true
             | None => false
             end), w).
Proof.
  unfold Configuration_contains, Configuration_applicable, mbind, M_bind.
  by rewrite applicable_from_find.
Qed.

(** *** The receiver [this.configurations.get(kind)] *)

Lemma handler_configuration_some kind c w :
  configurations (instance w) !! kind = Some c ->
  MapHandler_configuration kind w = (Return c, w).
Proof. intros H. unfold MapHandler_configuration. run. by rewrite H. Qed.

Lemma handler_configuration_none kind w :
  configurations (instance w) !! kind = None ->
  MapHandler_configuration kind w = (Throw TypeError, w).
Proof. intros H. unfold MapHandler_configuration. run. by rewrite H. Qed.

Lemma handler_parse_some kind c input w :
  configurations (instance w) !! kind = Some c ->
  MapHandler_parse kind input w = Configuration_parse input c w.
Proof.
  intros H. unfold MapHandler_parse, mbind, M_bind.
  by rewrite (handler_configuration_some _ _ _ H).
Qed.

Lemma handler_lookup_some kind c symbol w :
  configurations (instance w) !! kind = Some c ->
  MapHandler_lookup kind symbol w = Configuration_lookup symbol c w.
Proof.
  intros H. unfold MapHandler_lookup, mbind, M_bind.
  by rewrite (handler_configuration_some _ _ _ H).
Qed.

Lemma handler_contains_some kind c symbol w :
  configurations (instance w) !! kind = Some c ->
  MapHandler_contains kind symbol w = Configuration_contains symbol c w.
Proof.
  intros H. unfold MapHandler_contains, mbind, M_bind.
  by rewrite (handler_configuration_some _ _ _ H).
Qed.

(** *** [configure] *)

Lemma configure__spec config name w :
  MapHandler_configure_ config name w
  = (Return tt,
     mkWorld
       (mkMapHandler
          (<[name := mkConfiguration (resolve (maps (instance w)) (default [] config))]>
             (configurations (instance w)))
          (maps (instance w)))
       (console w ++ warnings (maps (instance w)) (default [] config))
       (ext w)).
Proof.
  unfold MapHandler_configure_, Configuration_constructor, mbind, M_bind.
  rewrite add_each_spec. reflexivity.
Qed.

Lemma configure_spec config w :
  MapHandler_configure config w
  = (Return tt,
     mkWorld
       (mkMapHandler
          (<[environment := built (maps (instance w)) config environment]>
          (<[macro := built (maps (instance w)) config macro]>
          (<[character := built (maps (instance w)) config character]>
          (<[delimiter := built (maps (instance w)) config delimiter]>
             (configurations (instance w))))))
          (maps (instance w)))
       ((((console w ++ complaints (maps (instance w)) config delimiter)
            ++ complaints (maps (instance w)) config character)
            ++ complaints (maps (instance w)) config macro)
            ++ complaints (maps (instance w)) config environment)
       (ext w)).
Proof.
  unfold MapHandler_configure, mbind, M_bind.
  rewrite configure__spec. rewrite configure__spec. simpl.
  rewrite configure__spec. simpl. rewrite configure__spec. reflexivity.
Qed.

Lemma configure_returns config w : fst (MapHandler_configure config w) = Return tt.
Proof. by rewrite configure_spec. Qed.

Lemma configure_maps config w :
  maps (instance (snd (MapHandler_configure config w))) = maps (instance w).
Proof. by rewrite configure_spec. Qed.

Lemma configure_lookup config w kind :
  configurations (instance (snd (MapHandler_configure config w))) !! kind
  = Some (built (maps (instance w)) config kind).
Proof.
  rewrite configure_spec. simpl. destruct kind; by simplify_map_eq.
Qed.

(** *** [append] *)

Lemma append_each_spec config name : forall c w,
  configurations (instance w) !! name = Some c ->
  MapHandler_append_each config name w
  = (Return tt,
     mkWorld
       (mkMapHandler
          (<[name := mkConfiguration
                       (configuration c ++ resolve (maps (instance w)) config)]>
             (configurations (instance w)))
          (maps (instance w)))
       (console w ++ warnings (maps (instance w)) config)
       (ext w)).
Proof.
  induction config as [|map config IH]; intros c w H; simpl.
  - run. rewrite !app_nil_r, configuration_eta, (insert_id _ _ _ H).
    by rewrite handler_eta, world_eta.
  - unfold mbind, M_bind. rewrite (handler_configuration_some _ _ _ H).
    destruct (maps (instance w) !! map) as [m|] eqn:Hm.
    + rewrite (add_found _ _ _ _ Hm). run.
      erewrite IH; [|simpl; apply lookup_insert_eq]. simpl.
      by rewrite insert_insert_eq, <- app_assoc.
    + rewrite (add_missing _ _ _ Hm). run.
      erewrite IH; [|simpl; apply lookup_insert_eq]. simpl.
      by rewrite insert_insert_eq, <- app_assoc.
Qed.

Lemma append_each_missing map config name w :
  configurations (instance w) !! name = None ->
  MapHandler_append_each (map :: config) name w = (Throw TypeError, w).
Proof.
  intros H. simpl. unfold mbind, M_bind.
  by rewrite (handler_configuration_none _ _ H).
Qed.

Lemma append__some config name c w :
  configurations (instance w) !! name = Some c ->
  MapHandler_append_ config name w
  = (Return tt,
     mkWorld
       (mkMapHandler
          (<[name := mkConfiguration
                       (configuration c
                        ++ resolve (maps (instance w)) (default [] config))]>
             (configurations (instance w)))
          (maps (instance w)))
       (console w ++ warnings (maps (instance w)) (default [] config))
       (ext w)).
Proof.
  intros H. destruct config as [config|]; simpl.
  - by apply append_each_spec.
  - run. rewrite !app_nil_r, configuration_eta, (insert_id _ _ _ H).
    by rewrite handler_eta, world_eta.
Qed.

Lemma append_only kind names c w :
  configurations (instance w) !! kind = Some c ->
  MapHandler_append (only kind names) w
  = (Return tt,
     mkWorld
       (mkMapHandler
          (<[kind := mkConfiguration
                       (configuration c ++ resolve (maps (instance w)) names)]>
             (configurations (instance w)))
          (maps (instance w)))
       (console w ++ warnings (maps (instance w)) names)
       (ext w)).
Proof.
  intros H. unfold MapHandler_append, mbind, M_bind.
  destruct kind; unfold only; simpl; run;
    by rewrite (append_each_spec _ _ _ _ H).
Qed.

(** *** The constructor *)

Lemma constructor_spec (out : list string) (e : Ext) :
  MapHandler_constructor out e
  = mkWorld
      (mkMapHandler
         (<[environment := mkConfiguration []]>
         (<[macro := mkConfiguration []]>
         (<[character := mkConfiguration []]>
         (<[delimiter := mkConfiguration []]> ∅))))
         (∅ : gmap string (SymbolMap ParseInput T Fragment Err Ext)))
      out e.
Proof.
  unfold MapHandler_constructor. rewrite configure_spec. simpl.
  unfold complaints, no_config, warnings; simpl. by rewrite !app_nil_r.
Qed.

(** *** What the operations keep *)

Lemma append__configured config name w :
  configured w ->
  exists w', MapHandler_append_ config name w = (Return tt, w')
             /\ configured w' /\ maps (instance w') = maps (instance w).
Proof.
  intros Hw. destruct (Hw name) as [c Hc].
  eexists. split; [by apply append__some|]. split; [|reflexivity].
  intros kind. simpl. rewrite lookup_insert_is_Some.
  destruct (decide (name = kind)); [by left | right; split; [done | apply Hw]].
Qed.

Lemma append_configured config w :
  configured w ->
  exists w', MapHandler_append config w = (Return tt, w')
             /\ configured w' /\ maps (instance w') = maps (instance w).
Proof.
  intros H0. unfold MapHandler_append, mbind, M_bind.
  destruct (append__configured (config delimiter) delimiter w H0)
    as (w1 & -> & H1 & E1).
  destruct (append__configured (config character) character w1 H1)
    as (w2 & -> & H2 & E2).
  destruct (append__configured (config macro) macro w2 H2)
    as (w3 & -> & H3 & E3).
  destruct (append__configured (config environment) environment w3 H3)
    as (w4 & -> & H4 & E4).
  exists w4. repeat split; [exact H4 | congruence].
Qed.

Lemma parse_from_frame ms input w :
  snd (Configuration_parse_from ms input w)
  = set_ext (ext (snd (Configuration_parse_from ms input w))) w.
Proof.
  destruct (Configuration_parse_from ms input w) as [[x|[|r]] w'] eqn:H; simpl.
  - by destruct (parse_from_throw_inv _ _ _ _ _ H) as (?&?&?&?&?&?&?&?&?&?).
  - by destruct (parse_from_absent_inv _ _ _ _ H).
  - by destruct (parse_from_result_inv _ _ _ _ _ H) as (?&?&?&?&?&?&?&?).
Qed.

Lemma handler_parse_instance kind input w :
  instance (snd (MapHandler_parse kind input w)) = instance w.
Proof.
  destruct (configurations (instance w) !! kind) as [c|] eqn:H.
  - rewrite (handler_parse_some _ _ _ _ H). unfold Configuration_parse.
    by rewrite parse_from_frame.
  - unfold MapHandler_parse, mbind, M_bind.
    by rewrite (handler_configuration_none _ _ H).
Qed.

Lemma handler_lookup_world kind symbol w :
  snd (MapHandler_lookup kind symbol w) = w.
Proof.
  destruct (configurations (instance w) !! kind) as [c|] eqn:H.
  - by rewrite (handler_lookup_some _ _ _ _ H), lookup_find.
  - unfold MapHandler_lookup, mbind, M_bind.
    by rewrite (handler_configuration_none _ _ H).
Qed.

Lemma handler_contains_world kind symbol w :
  snd (MapHandler_contains kind symbol w) = w.
Proof.
  destruct (configurations (instance w) !! kind) as [c|] eqn:H.
  - by rewrite (handler_contains_some _ _ _ _ H), contains_find.
  - unfold MapHandler_contains, mbind, M_bind.
    by rewrite (handler_configuration_none _ _ H).
Qed.

Lemma step_configured op w : configured w -> configured (step op w).
Proof.
  intros H. destruct op as [map|config|config|kind input|kind symbol|kind symbol|out e];
    simpl.
  - exact H.
  - intros kind. rewrite configure_lookup. by eexists.
  - by destruct (append_configured config w H) as (w' & -> & H' & _).
  - intros k. rewrite handler_parse_instance. apply H.
  - by rewrite handler_lookup_world.
  - by rewrite handler_contains_world.
  - exact H.
Qed.

Lemma step_named op w : configured w -> named w -> named (step op w).
Proof.
  intros Hc H. destruct op as [map|config|config|kind input|kind symbol|kind symbol|out e];
    simpl.
  - intros name m. simpl. rewrite lookup_insert.
    destruct (decide (getName map = name)) as [<-|]; [by intros [= <-] | apply H].
  - intros name m. rewrite configure_maps. apply H.
  - destruct (append_configured config w Hc) as (w' & -> & _ & E).
    intros name m. simpl. rewrite E. apply H.
  - intros name m. rewrite handler_parse_instance. apply H.
  - by rewrite handler_lookup_world.
  - by rewrite handler_contains_world.
  - exact H.
Qed.

Lemma reachable_configured_named w : reachable w -> configured w /\ named w.
Proof.
  induction 1 as [out e|op w _ [IH1 IH2]].
  - split.
    + intros kind. unfold MapHandler_getInstance, MapHandler_constructor.
      rewrite configure_lookup. by eexists.
    + intros name m. unfold MapHandler_getInstance, MapHandler_constructor.
      rewrite configure_maps. simpl. by rewrite lookup_empty.
  - split; [by apply step_configured | by apply step_named].
Qed.

Lemma resolve_names store names :
  (forall name m, store !! name = Some m -> getName m = name) ->
  getName <$> resolve store names
  = filter (fun name => is_Some (store !! name)) names.
Proof.
  intros Hn. unfold resolve. induction names as [|name names IH]; [reflexivity|].
  simpl. rewrite filter_cons. destruct (store !! name) as [m|] eqn:H.
  - rewrite decide_True by eauto. rewrite fmap_cons, (Hn _ _ H). f_equal. exact IH.
  - rewrite decide_False by (by intros [? ?]). exact IH.
Qed.

(** ** The properties *)

(** C1: for every chain and every symbol, [Configuration.lookup] returns
    the [lookup] of the first map in chain order whose [contains] is true,
    and absent when no map contains the symbol.  What comes after the first
    containing map plays no part, also when that map's own [lookup] is
    absent. *)
Theorem C1_lookup_first_containing (symbol : string) w :
  (forall c,
     Configuration_lookup symbol c w
     = (Return (match find (fun m => contains m symbol (ext w)) (configuration c) with
                | Some m => lookup m symbol (ext w)
                | None => None
                end), w))
  /\ (forall pre m post,
        Forall (fun m' => contains m' symbol (ext w) = false) pre ->
        contains m symbol (ext w) = true ->
        Configuration_lookup symbol (mkConfiguration (pre ++ m :: post)) w
        = (Return (lookup m symbol (ext w)), w))
  /\ (forall ms,
        Forall (fun m' => contains m' symbol (ext w) = false) ms ->
        Configuration_lookup symbol (mkConfiguration ms) w = (Return None, w)).
Proof.
  split; [intros c; apply lookup_find|]. split.
  - intros pre m post Hpre Hm. rewrite lookup_find. simpl.
    by rewrite (find_first _ _ _ _ Hpre Hm).
  - intros ms Hms. rewrite lookup_find. simpl. by rewrite (find_nowhere _ _ Hms).
Qed.

(** C2: [Configuration.parse] asks each map in chain order and returns the
    first result that is not absent; it returns absent exactly when every
    map's [parse] is absent.  For a chain of two maps of which the first
    returns absent and the second a result, it returns the second's result
    (whether or not both contain the symbol: [contains] is not asked). *)
Theorem C2_parse_first_capable (input : ParseInput) w :
  (forall pre m post e1 e2 r,
     declines pre input (ext w) = Some e1 ->
     parse m input e1 = (Return (result r), e2) ->
     Configuration_parse input (mkConfiguration (pre ++ m :: post)) w
     = (Return (result r), set_ext e2 w))
  /\ (forall c e1,
        declines (configuration c) input (ext w) = Some e1 ->
        Configuration_parse input c w = (Return absent, set_ext e1 w))
  /\ (forall c w',
        Configuration_parse input c w = (Return absent, w') ->
        declines (configuration c) input (ext w) = Some (ext w'))
  /\ (forall M1 M2 e1 e2 r,
        parse M1 input (ext w) = (Return absent, e1) ->
        parse M2 input e1 = (Return (result r), e2) ->
        Configuration_parse input (mkConfiguration [M1; M2]) w
        = (Return (result r), set_ext e2 w)).
Proof.
  split; [|split; [|split]].
  - intros pre m post e1 e2 r Hpre Hm. unfold Configuration_parse; cbn [configuration].
    rewrite (parse_from_app _ _ _ _ _ Hpre), parse_from_cons. cbn [ext set_ext].
    by rewrite Hm.
  - intros c e1 H. by apply parse_from_declines.
  - intros c w' H. by destruct (parse_from_absent_inv _ _ _ _ H).
  - intros M1 M2 e1 e2 r H1 H2. unfold Configuration_parse; cbn [configuration].
    rewrite parse_from_cons, H1, parse_from_cons. cbn [ext set_ext]. by rewrite H2.
Qed.

(** C3: [register] stores the new map under its name, so that every later
    [Configuration.add] of that name resolves to the new instance, and it
    leaves every chain as it is: an entry added before the registration is
    still the instance that was stored then.  Adding the name, registering
    a new map under it and adding the name again leaves the old instance
    followed by the new one. *)
Theorem C3_register_is_not_retroactive m w :
  let w' := snd (MapHandler_register m w) in
  fst (MapHandler_register m w) = Return tt
  /\ configurations (instance w') = configurations (instance w)
  /\ (forall c, Configuration_add (getName m) c w' = (Return (push c m), w'))
  /\ (forall kind c old,
        configurations (instance w) !! kind = Some c ->
        maps (instance w) !! getName m = Some old ->
        exists w'',
          (MapHandler_append (only kind [getName m]);;
           MapHandler_register m;;
           MapHandler_append (only kind [getName m])) w = (Return tt, w'')
          /\ configurations (instance w'') !! kind
             = Some (mkConfiguration (configuration c ++ [old; m]))).
Proof.
  cbv zeta. split; [reflexivity|]. split; [reflexivity|]. split.
  - intros c. apply add_found. simpl. apply lookup_insert_eq.
  - intros kind c old Hc Hold. unfold mbind, M_bind.
    rewrite (append_only _ _ _ _ Hc). unfold MapHandler_register. run.
    erewrite append_only; [|simpl; apply lookup_insert_eq].
    eexists. split; [reflexivity|]. simpl.
    rewrite lookup_insert_eq. unfold resolve; simpl.
    rewrite Hold, lookup_insert_eq. simpl. by rewrite <- app_assoc.
Qed.

(** C4: in every state of the handler's lifetime, for every category and
    every name that the store of maps does not have, [append] with that
    one name for the category, and [Configuration.add] of the name, return
    normally and change nothing but the console, which gets the warning:
    all chains, their lengths and contents, stay as they are. *)
Theorem C4_unregistered_name_is_omitted w (kind : Configurations) (name : string) :
  reachable w ->
  maps (instance w) !! name = None ->
  MapHandler_append (only kind [name]) w
  = (Return tt, set_console (fun out => out ++ [warning name]) w)
  /\ (forall c,
        Configuration_add name c w
        = (Return c, set_console (fun out => out ++ [warning name]) w))
  /\ configurations (instance (set_console (fun out => out ++ [warning name]) w))
     = configurations (instance w).
Proof.
  intros Hw Hname. destruct (reachable_configured_named _ Hw) as [Hc _].
  destruct (Hc kind) as [c Hkind]. split; [|split; [|reflexivity]].
  - rewrite (append_only _ _ _ _ Hkind). unfold resolve, warnings; simpl.
    rewrite Hname; simpl.
    rewrite app_nil_r, configuration_eta, (insert_id _ _ _ Hkind).
    by rewrite handler_eta.
  - intros c'. by apply add_missing.
Qed.

(** C5: [configure] returns normally and gives every category a new chain,
    built from the names its argument has for the category and from
    nothing else: what an earlier [configure] had set up is gone.  A
    category that the argument does not have gets the empty chain.  After
    [configure({character: ["a","b"]})] and [configure({character: ["c"]})]
    the chain of [character] has no entry but the map stored under ["c"],
    which is the one map that [lookup], [contains] and [parse] ask. *)
Theorem C5_configure_replaces w (first second : Config) (kind : Configurations) :
  let w2 := snd (MapHandler_configure second (snd (MapHandler_configure first w))) in
  let w3 := snd (MapHandler_configure (only character ["c"])
                   (snd (MapHandler_configure (only character ["a"; "b"]) w))) in
  fst (MapHandler_configure second (snd (MapHandler_configure first w))) = Return tt
  /\ configurations (instance w2) !! kind
     = Some (built (maps (instance w)) second kind)
  /\ (second kind = None ->
      configurations (instance w2) !! kind = Some (mkConfiguration []))
  /\ exists c,
       configurations (instance w3) !! character = Some c
       /\ configuration c = resolve (maps (instance w)) ["c"]
       /\ (forall m, m ∈ configuration c -> maps (instance w) !! "c" = Some m)
       /\ (named w -> forall m, m ∈ configuration c -> getName m = "c")
       /\ (forall symbol,
             MapHandler_lookup character symbol w3 = Configuration_lookup symbol c w3
             /\ MapHandler_contains character symbol w3
                = Configuration_contains symbol c w3)
       /\ (forall input,
             MapHandler_parse character input w3 = Configuration_parse input c w3).
Proof.
  cbv zeta. split; [apply configure_returns|]. split; [|split].
  - by rewrite configure_lookup, configure_maps.
  - intros H. rewrite configure_lookup, configure_maps. unfold built. by rewrite H.
  - eexists. split; [by rewrite configure_lookup, configure_maps|].
    assert (Hin : forall m, m ∈ resolve (maps (instance w)) ["c"] ->
                            maps (instance w) !! "c" = Some m).
    { intros m. unfold resolve; simpl.
      destruct (maps (instance w) !! "c"); simpl; [|by intros ?%elem_of_nil].
      by intros ->%list_elem_of_singleton. }
    split; [reflexivity|]. split; [exact Hin|]. split; [|split].
    + intros Hn m Hm. apply Hn, Hin, Hm.
    + intros symbol. split.
      * apply handler_lookup_some. by rewrite configure_lookup, configure_maps.
      * apply handler_contains_some. by rewrite configure_lookup, configure_maps.
    + intros input. apply handler_parse_some.
      by rewrite configure_lookup, configure_maps.
Qed.

(** C6: an error that a map of the chain raises in [parse] comes out of
    [Configuration.parse] and of [MapHandler.parse] as that same error, and
    a chain of which every map returns absent yields absent.  Neither turns
    into the other: [parse] returns absent only when every map returned
    absent, and it throws only what a map threw.  [lookup] and [contains]
    return. *)
Theorem C6_failure_and_absence_stay_apart (kind : Configurations)
    (input : ParseInput) w c :
  configurations (instance w) !! kind = Some c ->
  (forall pre m post e1 e2 x,
     configuration c = pre ++ m :: post ->
     declines pre input (ext w) = Some e1 ->
     parse m input e1 = (Throw x, e2) ->
     Configuration_parse input c w = (Throw (Raised x), set_ext e2 w)
     /\ MapHandler_parse kind input w = (Throw (Raised x), set_ext e2 w))
  /\ (forall e1,
        declines (configuration c) input (ext w) = Some e1 ->
        Configuration_parse input c w = (Return absent, set_ext e1 w)
        /\ MapHandler_parse kind input w = (Return absent, set_ext e1 w))
  /\ (forall w',
        MapHandler_parse kind input w = (Return absent, w') ->
        declines (configuration c) input (ext w) = Some (ext w'))
  /\ (forall x w',
        MapHandler_parse kind input w = (Throw x, w') ->
        exists pre m post e1 y,
          configuration c = pre ++ m :: post
          /\ declines pre input (ext w) = Some e1
          /\ parse m input e1 = (Throw y, ext w') /\ x = Raised y)
  /\ (forall symbol, exists v b,
        MapHandler_lookup kind symbol w = (Return v, w)
        /\ MapHandler_contains kind symbol w = (Return b, w)).
Proof.
  intros Hc. rewrite (handler_parse_some _ _ input _ Hc).
  split; [|split; [|split; [|split]]].
  - intros pre m post e1 e2 x Hsplit Hpre Hm.
    assert (Configuration_parse input c w = (Throw (Raised x), set_ext e2 w)); [|done].
    unfold Configuration_parse. rewrite Hsplit.
    rewrite (parse_from_app _ _ _ _ _ Hpre), parse_from_cons. cbn [ext set_ext].
    by rewrite Hm.
  - intros e1 H. unfold Configuration_parse.
    by rewrite (parse_from_declines _ _ _ _ H).
  - intros w' H. by destruct (parse_from_absent_inv _ _ _ _ H).
  - intros x w' H.
    destruct (parse_from_throw_inv _ _ _ _ _ H)
      as (pre & m & post & e1 & y & H1 & H2 & H3 & H4 & _).
    by exists pre, m, post, e1, y.
  - intros symbol. eexists _, _.
    rewrite (handler_lookup_some _ _ _ _ Hc), (handler_contains_some _ _ _ _ Hc).
    by rewrite lookup_find, contains_find.
Qed.

(** C7: a chain holds the maps in the order in which they were added: the
    constructor leaves the maps that the names resolve to, in the order of
    the names; [add] puts a map after all earlier entries and [append] puts
    the maps of its names, in order, after them.  Adding one registered
    name twice gives two entries, and [parse] asks both: when the first
    returns absent, the second is asked in the state that the first
    left. *)
Theorem C7_chain_keeps_order_and_duplicates w :
  (forall names,
     Configuration_constructor names w
     = (Return (mkConfiguration (resolve (maps (instance w)) names)),
        set_console (fun out => out ++ warnings (maps (instance w)) names) w))
  /\ (forall name c m,
        maps (instance w) !! name = Some m ->
        Configuration_add name c w
        = (Return (mkConfiguration (configuration c ++ [m])), w))
  /\ (forall name c m,
        maps (instance w) !! name = Some m ->
        (c1 ← Configuration_add name c; Configuration_add name c1) w
        = (Return (mkConfiguration (configuration c ++ [m; m])), w))
  /\ (forall kind c names,
        configurations (instance w) !! kind = Some c ->
        configurations (instance (snd (MapHandler_append (only kind names) w))) !! kind
        = Some (mkConfiguration
                  (configuration c ++ resolve (maps (instance w)) names)))
  /\ (forall names,
        named w ->
        getName <$> resolve (maps (instance w)) names
        = filter (fun name => is_Some (maps (instance w) !! name)) names)
  /\ (forall input m e1,
        parse m input (ext w) = (Return absent, e1) ->
        Configuration_parse input (mkConfiguration [m; m]) w
        = call (parse m input) (set_ext e1 w)).
Proof.
  split; [|split; [|split; [|split; [|split]]]].
  - intros names. unfold Configuration_constructor. by rewrite add_each_spec.
  - intros name c m H. by rewrite (add_found _ _ _ _ H).
  - intros name c m H. unfold mbind, M_bind.
    rewrite (add_found _ _ _ _ H), (add_found _ _ _ _ H). unfold push; simpl.
    by rewrite <- app_assoc.
  - intros kind c names H. rewrite (append_only _ _ _ _ H). simpl.
    apply lookup_insert_eq.
  - intros names Hn. by apply resolve_names.
  - intros input m e1 H. unfold Configuration_parse; cbn [configuration].
    rewrite parse_from_cons, H, parse_from_cons. unfold call. cbn [ext set_ext].
    by destruct (parse m input e1) as [[x|[|r]] e2].
Qed.

(** C10: the handler that [getInstance] constructs has a configuration for
    each of the four categories, and so has the handler after any
    [configure], whatever came before.  Hence in every state of the
    handler's lifetime [parse], [lookup] and [contains] find the
    configuration of the category they are called with: they are the
    methods of that configuration, and [parse] throws no [TypeError]. *)
Theorem C10_every_category_configured :
  (forall out e, configured (MapHandler_getInstance (unset out e) : World ParseInput T Fragment Err Ext))
  /\ (forall config w, configured (snd (MapHandler_configure config w)))
  /\ (forall w (kind : Configurations),
        reachable w ->
        exists c,
          configurations (instance w) !! kind = Some c
          /\ (forall input,
                MapHandler_parse kind input w = Configuration_parse input c w
                /\ fst (MapHandler_parse kind input w) <> Throw TypeError)
          /\ (forall symbol,
                MapHandler_lookup kind symbol w = Configuration_lookup symbol c w)
          /\ (forall symbol,
                MapHandler_contains kind symbol w
                = Configuration_contains symbol c w)).
Proof.
  split; [|split].
  - intros out e. apply reachable_configured_named, reachable_new.
  - intros config w kind. rewrite configure_lookup. by eexists.
  - intros w kind Hw. destruct (reachable_configured_named _ Hw) as [Hc _].
    destruct (Hc kind) as [c Hkind]. exists c. split; [exact Hkind|].
    split; [|split].
    + intros input. rewrite (handler_parse_some _ _ _ _ Hkind).
      split; [reflexivity|].
      destruct (Configuration_parse input c w) as [[x|r] w'] eqn:H; [|done].
      destruct (parse_from_throw_inv _ _ _ _ _ H) as (?&?&?&?&y&_&_&_&->&_).
      done.
    + intros symbol. by apply handler_lookup_some.
    + intros symbol. by apply handler_contains_some.
Qed.

End Handler_theory.

(** * Properties of the semantics nodes *)

Section Semantics_theory.
Variables AMmlNode_defaults AMmlBaseNode_defaults : PropertyList.
Variables AMmlNode_getter AMmlBaseNode_getter : string -> option Property.

Implicit Types h : Heap.
Implicit Types o : PropertyList.

Lemma lookup_alloc_new o h : (alloc o h).2 !! (alloc o h).1 = Some o.
Proof. unfold alloc; simpl. by rewrite lookup_app_r, Nat.sub_diag. Qed.

Lemma lookup_alloc_old o h l : l < length h -> (alloc o h).2 !! l = h !! l.
Proof. intros H. unfold alloc; simpl. by rewrite lookup_app_l. Qed.

Lemma lookup_assign_ne l l' key v h : l <> l' -> assign l key v h !! l' = h !! l'.
Proof. intros H. unfold assign. by rewrite list_lookup_alter_ne. Qed.

Lemma lookup_assign_eq l key v h o :
  h !! l = Some o -> assign l key v h !! l = Some (<[key := v]> o).
Proof. intros H. unfold assign. by rewrite list_lookup_alter_eq, H. Qed.

(** C9: the getter [notParent] of [MmlSemantics] answers true, and the
    getter [linebreakContainer] of [MmlAnnotationXML] answers true,
    whatever the classes of [../MmlNode] answer; [MmlAnnotation], which
    declares no getter, answers [linebreakContainer] as the class it
    extends does. *)
Theorem C9_structural_flags :
  getter AMmlNode_getter AMmlBaseNode_getter MmlSemantics "notParent"
  = Some (PBool true)
  /\ getter AMmlNode_getter AMmlBaseNode_getter MmlAnnotationXML "linebreakContainer"
     = Some (PBool true)
  /\ getter AMmlNode_getter AMmlBaseNode_getter MmlAnnotation "linebreakContainer"
     = Some (PBool true).
Proof.
  unfold getter. split; [|split].
  - reflexivity.
  - reflexivity.
  - cbn [getter_within own_getter extends]. reflexivity.
Qed.

Variable bagField : string.

Lemma new_MmlAnnotation_spec st h :
  new_MmlAnnotation bagField st h
  = (mkNode MmlAnnotation
            (<["properties" := S (length h)]> {[ bagField := length h ]}),
     (h ++ [default ∅ (h !! MmlAnnotationXML_defaults st)])
       ++ [{[ "isChars" := PBool true ]}]).
Proof.
  unfold new_MmlAnnotation, AMmlNode_constructor, alloc; simpl.
  by rewrite length_app, Nat.add_1_r.
Qed.

Lemma load_spec h0 :
  load AMmlNode_defaults AMmlBaseNode_defaults h0
  = (mkStatics (length h0) (S (length h0)),
     (h0 ++ [<["encoding" := PNull]>
             (<["definitionUrl" := PNull]> AMmlBaseNode_defaults)])
        ++ [<["src" := PNull]>
            (<["name" := PString ""]>
            (<["cd" := PString "mathmlkeys"]>
            (<["encoding" := PNull]>
            (<["definitionUrl" := PNull]> AMmlNode_defaults))))]).
Proof. unfold load, alloc; simpl. by rewrite length_app, Nat.add_1_r. Qed.

Lemma fields_new_MmlAnnotation field l a :
  (<["properties" := S a]> ({[ bagField := a ]} : gmap string loc)) !! field = Some l ->
  l = a \/ l = S a.
Proof.
  rewrite lookup_insert_Some, lookup_singleton_Some.
  intros [[_ <-]|[_ [_ <-]]]; [by right | by left].
Qed.

Lemma holds_annotation_defaults o :
  holds (<["src" := PNull]>
         (<["name" := PString ""]>
         (<["cd" := PString "mathmlkeys"]>
         (<["encoding" := PNull]>
         (<["definitionUrl" := PNull]> o))))) annotation_defaults = true.
Proof.
  unfold holds, annotation_defaults; simpl.
  repeat (rewrite bool_decide_eq_true_2;
          [|repeat (rewrite lookup_insert_ne by discriminate);
            apply lookup_insert_eq]).
  reflexivity.
Qed.

(** C8, as amended: [MmlAnnotation] has no static table of its own: its
    [defaults] is the table of [MmlAnnotationXML], which holds the five
    defaults and no [isChars] of the kind's.  A new instance has, in its
    field [properties], a new object that holds [isChars: true] and nothing
    else; the bag that the constructor copies from the table holds the five
    defaults (when it is kept in another field than [properties]).
    Assigning to a property list of one instance changes that list and
    leaves the lists of a second instance and the static tables as they
    were. *)
Theorem C8_defaults_and_marker_apart (h0 : Heap) :
  let '(st, h) := load AMmlNode_defaults AMmlBaseNode_defaults h0 in
  let '(n1, h1) := new_MmlAnnotation bagField st h in
  let '(n2, h2) := new_MmlAnnotation bagField st h1 in
  defaults st MmlAnnotation = defaults st MmlAnnotationXML
  /\ (exists d table,
        defaults st MmlAnnotation = Some d /\ h2 !! d = Some table
        /\ holds table annotation_defaults = true
        /\ table !! "isChars" = AMmlNode_defaults !! "isChars")
  /\ bag_in "properties" n1 h1 = Some {[ "isChars" := PBool true ]}
  /\ bag_in "properties" n2 h2 = Some {[ "isChars" := PBool true ]}
  /\ (bagField <> "properties" ->
      exists bag,
        bag_in bagField n1 h1 = Some bag
        /\ holds bag annotation_defaults = true
        /\ bag !! "isChars" = AMmlNode_defaults !! "isChars")
  /\ (forall field l key v,
        fields n1 !! field = Some l ->
        (exists bag,
           h2 !! l = Some bag
           /\ assign l key v h2 !! l = Some (<[key := v]> bag))
        /\ (forall field', bag_in field' n2 (assign l key v h2) = bag_in field' n2 h2)
        /\ (forall c d, defaults st c = Some d -> assign l key v h2 !! d = h2 !! d)).
Proof.
  rewrite load_spec, !new_MmlAnnotation_spec.
  set (S0 := <["encoding" := PNull]> (<["definitionUrl" := PNull]> AMmlBaseNode_defaults)).
  set (X0 := <["src" := PNull]> (<["name" := PString ""]>
             (<["cd" := PString "mathmlkeys"]> (<["encoding" := PNull]>
             (<["definitionUrl" := PNull]> AMmlNode_defaults))))).
  set (I0 := ({[ "isChars" := PBool true ]} : PropertyList)).
  cbn [MmlAnnotationXML_defaults].
  set (h := (h0 ++ [S0]) ++ [X0]).
  assert (Hlen : length h = S (S (length h0))).
  { unfold h. rewrite !length_app. simpl. lia. }
  assert (HX : h !! S (length h0) = Some X0).
  { unfold h. rewrite lookup_app_r; rewrite length_app; simpl; [|lia].
    by replace (S (length h0) - (length h0 + 1)) with 0 by lia. }
  rewrite HX. change (default ∅ (Some X0)) with X0.
  set (h1 := (h ++ [X0]) ++ [I0]).
  assert (Hlen1 : length h1 = S (S (length h))).
  { unfold h1. rewrite !length_app. simpl. lia. }
  assert (HX1 : h1 !! S (length h0) = Some X0).
  { unfold h1. rewrite <- app_assoc, lookup_app_l; [exact HX | lia]. }
  rewrite HX1. change (default ∅ (Some X0)) with X0.
  set (h2 := (h1 ++ [X0]) ++ [I0]).
  assert (Hold : forall l, l < length h1 -> h2 !! l = h1 !! l).
  { intros l Hl. unfold h2. by rewrite <- app_assoc, lookup_app_l. }
  assert (H1b : h1 !! length h = Some X0).
  { unfold h1. rewrite <- app_assoc, lookup_app_r, Nat.sub_diag; done. }
  assert (H1p : h1 !! S (length h) = Some I0).
  { unfold h1. rewrite lookup_app_r; rewrite length_app; simpl; [|lia].
    by replace (S (length h) - (length h + 1)) with 0 by lia. }
  assert (H2b : h2 !! length h1 = Some X0).
  { unfold h2. rewrite <- app_assoc, lookup_app_r, Nat.sub_diag; done. }
  assert (H2p : h2 !! S (length h1) = Some I0).
  { unfold h2. rewrite lookup_app_r; rewrite length_app; simpl; [|lia].
    by replace (S (length h1) - (length h1 + 1)) with 0 by lia. }
  split; [reflexivity|]. split; [|split; [|split; [|split]]].
  - exists (S (length h0)), X0. split; [reflexivity|].
    split; [rewrite Hold; [exact HX1 | lia]|].
    split; [apply holds_annotation_defaults|].
    unfold X0. by rewrite !lookup_insert_ne by discriminate.
  - unfold bag_in; simpl. by rewrite lookup_insert_eq.
  - unfold bag_in; simpl. by rewrite lookup_insert_eq.
  - intros Hne. exists X0. unfold bag_in; simpl.
    rewrite lookup_insert_ne by done. rewrite lookup_singleton_eq. simpl.
    split; [exact H1b|]. split; [apply holds_annotation_defaults|].
    unfold X0. by rewrite !lookup_insert_ne by discriminate.
  - intros field l key v Hl. simpl in Hl.
    apply fields_new_MmlAnnotation in Hl.
    assert (Hbag : exists bag, h2 !! l = Some bag).
    { destruct Hl as [-> | ->]; rewrite Hold by lia; eauto. }
    destruct Hbag as [bag Hbag]. split; [|split].
    + exists bag. split; [exact Hbag|]. by apply lookup_assign_eq.
    + intros field'. unfold bag_in; simpl.
      destruct ((<["properties" := S (length h1)]> {[bagField := length h1]} : gmap string loc) !! field')
        as [l'|] eqn:Hl'; simpl; [|reflexivity].
      apply fields_new_MmlAnnotation in Hl'.
      apply lookup_assign_ne. lia.
    + intros c d Hd. apply lookup_assign_ne.
      destruct c; simpl in Hd; simplify_eq; lia.
Qed.

End Semantics_theory.

(** The second of two maps that contain [x] is not asked by [lookup], though
    the first has no value for [x] and the second has. *)
Lemma C1_witness :
  contains silent "x" [] = true /\ lookup silent "x" [] = None
  /\ lookup loud "x" [] = Some "X"
  /\ Configuration_lookup "x" (mkConfiguration [silent; loud]) fresh
     = (Return None, fresh).
Proof.
  split; [reflexivity|]. split; [reflexivity|]. split; [reflexivity|].
  exact (proj1 (proj2 (C1_lookup_first_containing "x" fresh))
               [] silent [loud] (List.Forall_nil _) eq_refl).
Defined.

(** The second of two maps is asked by [parse] when the first, which
    contains [x] as well, returns absent. *)
Lemma C2_witness :
  parse silent "x" [] = (Return absent, ["silent"])
  /\ parse loud "x" ["silent"] = (Return (result "X"), ["silent"; "loud"])
  /\ Configuration_parse "x" (mkConfiguration [silent; loud]) fresh
     = (Return (result "X"), set_ext ["silent"; "loud"] fresh).
Proof.
  split; [reflexivity|]. split; [reflexivity|].
  exact (proj2 (proj2 (proj2 (C2_parse_first_capable "x" fresh)))
               silent loud ["silent"] ["silent"; "loud"] "X" eq_refl eq_refl).
Defined.

(** The entry added before [greek] is registered anew stays the old map;
    the entry added after is the new one. *)
Lemma C3_witness :
  configurations (instance with_greek) !! character = Some (mkConfiguration [])
  /\ maps (instance with_greek) !! "greek" = Some first_greek
  /\ exists w'',
       (MapHandler_append (only character ["greek"]);;
        MapHandler_register second_greek;;
        MapHandler_append (only character ["greek"])) with_greek = (Return tt, w'')
       /\ configurations (instance w'') !! character
          = Some (mkConfiguration [first_greek; second_greek]).
Proof.
  assert (H1 : configurations (instance with_greek) !! character
               = Some (mkConfiguration [])) by (vm_compute; reflexivity).
  assert (H2 : maps (instance with_greek) !! "greek" = Some first_greek)
    by (vm_compute; reflexivity).
  split; [exact H1|]. split; [exact H2|].
  exact (proj2 (proj2 (proj2 (C3_register_is_not_retroactive second_greek with_greek)))
               character (mkConfiguration []) first_greek H1 H2).
Defined.

(** Appending the unregistered name [foo] to the macros of the new handler
    prints the warning and returns. *)
Lemma C4_witness :
  reachable fresh /\ maps (instance fresh) !! "foo" = None
  /\ MapHandler_append (only macro ["foo"]) fresh
     = (Return tt,
        set_console
          (fun out => out ++ ["TexParser Warning: Configuration foo not found! Omitted."])
          fresh).
Proof.
  assert (H1 : reachable fresh) by apply reachable_new.
  assert (H2 : maps (instance fresh) !! "foo" = None) by (vm_compute; reflexivity).
  split; [exact H1|]. split; [exact H2|].
  exact (proj1 (C4_unregistered_name_is_omitted fresh macro "foo" H1 H2)).
Defined.

(** With maps [a], [b] and [c] registered, the second [configure] leaves
    the map [c] alone in the chain that held [a] and [b]. *)
Lemma C5_witness :
  configurations
    (instance (snd (MapHandler_configure (only character ["a"; "b"]) stocked)))
    !! character
  = Some (mkConfiguration [signed "a"; signed "b"])
  /\ configurations
       (instance (snd (MapHandler_configure (only character ["c"])
                         (snd (MapHandler_configure (only character ["a"; "b"])
                                 stocked)))))
       !! character
     = Some (mkConfiguration [signed "c"]).
Proof.
  split; [vm_compute; reflexivity|].
  exact (proj1 (proj2 (C5_configure_replaces stocked (only character ["a"; "b"])
                         (only character ["c"]) character))).
Defined.

(** The error of the second of three maps comes out of [MapHandler.parse];
    the third map is not asked. *)
Lemma C6_witness :
  configurations (instance wired) !! macro
  = Some (mkConfiguration [silent; broken; loud])
  /\ declines [silent] "x" [] = Some ["silent"]
  /\ parse broken "x" ["silent"] = (Throw "unterminated", ["silent"; "broken"])
  /\ MapHandler_parse macro "x" wired
     = (Throw (Raised "unterminated"), set_ext ["silent"; "broken"] wired).
Proof.
  assert (H1 : configurations (instance wired) !! macro
               = Some (mkConfiguration [silent; broken; loud]))
    by (vm_compute; reflexivity).
  split; [exact H1|]. split; [reflexivity|]. split; [reflexivity|].
  exact (proj2 (proj1 (C6_failure_and_absence_stay_apart macro "x" wired _ H1)
                  [silent] broken [loud] ["silent"] ["silent"; "broken"]
                  "unterminated" eq_refl eq_refl eq_refl)).
Defined.

(** Adding [silent] twice gives two entries, and [parse] runs the map
    twice. *)
Lemma C7_witness :
  maps (instance with_silent) !! "silent" = Some silent
  /\ (c1 ← Configuration_add "silent" (mkConfiguration []);
      Configuration_add "silent" c1) with_silent
     = (Return (mkConfiguration [silent; silent]), with_silent)
  /\ parse silent "x" [] = (Return absent, ["silent"])
  /\ Configuration_parse "x" (mkConfiguration [silent; silent]) with_silent
     = (Return absent, set_ext ["silent"; "silent"] with_silent).
Proof.
  assert (H1 : maps (instance with_silent) !! "silent" = Some silent)
    by (vm_compute; reflexivity).
  split; [exact H1|]. split.
  - exact (proj1 (proj2 (proj2 (C7_chain_keeps_order_and_duplicates with_silent)))
                 "silent" (mkConfiguration []) silent H1).
  - split; [reflexivity|].
    exact (proj2 (proj2 (proj2 (proj2 (proj2
                   (C7_chain_keeps_order_and_duplicates with_silent)))))
                 "x" silent ["silent"] eq_refl).
Defined.

(** The configured handler is a state of the lifetime, and its [parse] for
    the macros is the [parse] of their chain. *)
Lemma C10_witness :
  reachable wired
  /\ exists c,
       configurations (instance wired) !! macro = Some c
       /\ (forall input,
             MapHandler_parse macro input wired = Configuration_parse input c wired
             /\ fst (MapHandler_parse macro input wired) <> Throw TypeError)
       /\ (forall symbol,
             MapHandler_lookup macro symbol wired = Configuration_lookup symbol c wired)
       /\ (forall symbol,
             MapHandler_contains macro symbol wired
             = Configuration_contains symbol c wired).
Proof.
  assert (H : reachable wired).
  { unfold wired, fresh. do 4 apply reachable_step. apply reachable_new. }
  split; [exact H|].
  exact (proj2 (proj2 C10_every_category_configured) wired macro H).
Defined.

(** With empty tables for the classes of [../MmlNode], whether the
    constructor keeps its bag in the field [properties] or in a field
    [attributes], no property list of a new [MmlAnnotation] holds the five
    defaults together with the marker. *)
Lemma C8_counterexample :
  (let '(st, h) := load ∅ ∅ [] in
   let '(n, h1) := new_MmlAnnotation "properties" st h in
   has_defaults_and_marker n h1) = false
  /\ (let '(st, h) := load ∅ ∅ [] in
      let '(n, h1) := new_MmlAnnotation "attributes" st h in
      has_defaults_and_marker n h1) = false.
Proof. split; vm_compute; reflexivity. Qed.

(** With the bag kept in a field [attributes], a new [MmlAnnotation] has
    the marker alone in [properties] and the five defaults, without the
    marker, in [attributes]. *)
Lemma C8_witness :
  "attributes" <> "properties"
  /\ (let '(st, h) := load ∅ ∅ [] in
      let '(n1, h1) := new_MmlAnnotation "attributes" st h in
      bag_in "properties" n1 h1 = Some {[ "isChars" := PBool true ]}
      /\ exists bag,
           bag_in "attributes" n1 h1 = Some bag
           /\ holds bag annotation_defaults = true
           /\ bag !! "isChars" = None).
Proof.
  assert (Hne : "attributes" <> "properties") by discriminate.
  split; [exact Hne|].
  pose proof (C8_defaults_and_marker_apart ∅ ∅ "attributes" []) as H.
  cbv beta iota zeta delta [load alloc new_MmlAnnotation AMmlNode_constructor] in H.
  destruct H as (_ & _ & Hp & _ & Hb & _).
  split; [exact Hp | exact (Hb Hne)].
Defined.

(** * Further properties of the handler *)

Section Handler_more.
Context {ParseInput T Fragment Err Ext : Type}.

Implicit Types w : World ParseInput T Fragment Err Ext.
Implicit Types c : Configuration ParseInput T Fragment Err Ext.
Implicit Types m : SymbolMap ParseInput T Fragment Err Ext.
Implicit Types ms : list (SymbolMap ParseInput T Fragment Err Ext).
Implicit Types store : gmap string (SymbolMap ParseInput T Fragment Err Ext).

Local Ltac run :=
  unfold mbind, M_bind, mret, M_ret, gets, modify, throw, ask, call; simpl.


(** X2: the handler that the first [getInstance] builds has no map, and
    for each of the four categories a chain without entries; building it
    prints nothing and leaves the outside state.  On it [contains] is
    false, and [lookup] and [parse] are absent, for every category, symbol
    and input, and they change nothing. *)
Theorem X2_new_handler_answers_nothing (out : list string) (e : Ext)
    (kind : Configurations) (symbol : string) (input : ParseInput) :
  let w : World ParseInput T Fragment Err Ext :=
    MapHandler_getInstance (unset out e) in
  console w = out /\ ext w = e
  /\ (forall name, MapHandler_getMap name w = (Return None, w))
  /\ configurations (instance w) !! kind = Some (mkConfiguration [])
  /\ MapHandler_contains kind symbol w = (Return false, w)
  /\ MapHandler_lookup kind symbol w = (Return None, w)
  /\ MapHandler_parse kind input w = (Return absent, w).
Proof.
  cbv zeta. unfold MapHandler_getInstance. rewrite constructor_spec.
  set (w := mkWorld _ out e).
  assert (H : configurations (instance w) !! kind = Some (mkConfiguration [])).
  { unfold w; simpl. destruct kind; by simplify_map_eq. }
  split; [reflexivity|]. split; [reflexivity|]. split; [|split; [exact H|]].
  - intros name. unfold MapHandler_getMap. run. by rewrite lookup_empty.
  - rewrite (handler_contains_some _ _ _ _ H), (handler_lookup_some _ _ _ _ H),
      (handler_parse_some _ _ _ _ H).
    by rewrite contains_find, lookup_find.
Qed.

(** *** Which map answers *)

Lemma existsb_find {A : Type} (P : A -> bool) (l : list A) :
  existsb P l = match find P l with Some _ => true | None => false end.
Proof.
  induction l as [|x l IH]; simpl; [reflexivity|]. by destruct (P x).
Qed.

Lemma find_app_found {A : Type} (P : A -> bool) (l l' : list A) (x : A) :
  find P l = Some x -> find P (l ++ l') = Some x.
Proof.
  induction l as [|y l IH]; simpl; [discriminate|]. by destruct (P y).
Qed.

(** X3: [Configuration.contains] is true exactly when some map of the
    chain contains the symbol.  When it is false, [lookup] is absent; when
    it is true, [lookup] gives the value of a map of the chain that
    contains the symbol.  Neither changes the state. *)
Theorem X3_contains_when_some_map_contains (symbol : string) c w :
  Configuration_contains symbol c w
  = (Return (existsb (fun m => contains m symbol (ext w)) (configuration c)), w)
  /\ (existsb (fun m => contains m symbol (ext w)) (configuration c) = false ->
      Configuration_lookup symbol c w = (Return None, w))
  /\ (existsb (fun m => contains m symbol (ext w)) (configuration c) = true ->
      exists m,
        m ∈ configuration c /\ contains m symbol (ext w) = true
        /\ Configuration_lookup symbol c w = (Return (lookup m symbol (ext w)), w)).
Proof.
  rewrite contains_find, lookup_find, existsb_find.
  destruct (find _ (configuration c)) as [m|] eqn:H.
  - split; [reflexivity|]. split; [discriminate|]. intros _.
    destruct (find_some _ _ H) as [Hin Hm].
    exists m. by rewrite list_elem_of_In.
  - split; [reflexivity|]. split; [reflexivity | discriminate].
Qed.




Lemma append_spec config w cd cc cm ce :
  configurations (instance w) !! delimiter = Some cd ->
  configurations (instance w) !! character = Some cc ->
  configurations (instance w) !! macro = Some cm ->
  configurations (instance w) !! environment = Some ce ->
  MapHandler_append config w
  = (Return tt,
     mkWorld
       (mkMapHandler
          (<[environment := mkConfiguration
               (configuration ce
                ++ resolve (maps (instance w)) (default [] (config environment)))]>
          (<[macro := mkConfiguration
               (configuration cm
                ++ resolve (maps (instance w)) (default [] (config macro)))]>
          (<[character := mkConfiguration
               (configuration cc
                ++ resolve (maps (instance w)) (default [] (config character)))]>
          (<[delimiter := mkConfiguration
               (configuration cd
                ++ resolve (maps (instance w)) (default [] (config delimiter)))]>
             (configurations (instance w))))))
          (maps (instance w)))
       ((((console w ++ complaints (maps (instance w)) config delimiter)
            ++ complaints (maps (instance w)) config character)
            ++ complaints (maps (instance w)) config macro)
            ++ complaints (maps (instance w)) config environment)
       (ext w)).
Proof.
  intros Hd Hc Hm He. unfold MapHandler_append, mbind, M_bind.
  rewrite (append__some _ _ _ _ Hd).
  erewrite append__some; [|simpl; by rewrite lookup_insert_ne]. simpl.
  erewrite append__some; [|simpl; by rewrite !lookup_insert_ne]. simpl.
  erewrite append__some; [|simpl; by rewrite !lookup_insert_ne]. reflexivity.
Qed.

Lemma resolve_app store (l1 l2 : list string) :
  resolve store (l1 ++ l2) = resolve store l1 ++ resolve store l2.
Proof. unfold resolve. apply omap_app. Qed.

(** X4: when every category has its configuration, [append] returns
    normally; it puts, for every category, the maps that the names of its
    argument resolve to after the entries the chain has, in the order of
    the names, and leaves the chain of a category that the argument does
    not have.  It changes neither the store of maps nor the outside state,
    and it prints the warnings category by category, in the order
    [delimiter], [character], [macro], [environment]. *)
Theorem X4_append_extends_every_chain (config : Config) w :
  configured w ->
  exists w',
    MapHandler_append config w = (Return tt, w')
    /\ (forall kind c,
          configurations (instance w) !! kind = Some c ->
          configurations (instance w') !! kind
          = Some (mkConfiguration
                    (configuration c
                     ++ resolve (maps (instance w)) (default [] (config kind)))))
    /\ (forall kind,
          config kind = None ->
          configurations (instance w') !! kind
          = configurations (instance w) !! kind)
    /\ maps (instance w') = maps (instance w)
    /\ ext w' = ext w
    /\ console w'
       = console w
         ++ complaints (maps (instance w)) config delimiter
         ++ complaints (maps (instance w)) config character
         ++ complaints (maps (instance w)) config macro
         ++ complaints (maps (instance w)) config environment.
Proof.
  intros Hw.
  destruct (Hw delimiter) as [cd Hd], (Hw character) as [cc Hc],
    (Hw macro) as [cm Hm], (Hw environment) as [ce He].
  eexists. split; [by apply append_spec|].
  assert (Hall : forall kind c,
    configurations (instance w) !! kind = Some c ->
    (<[environment := mkConfiguration
         (configuration ce
          ++ resolve (maps (instance w)) (default [] (config environment)))]>
    (<[macro := mkConfiguration
         (configuration cm
          ++ resolve (maps (instance w)) (default [] (config macro)))]>
    (<[character := mkConfiguration
         (configuration cc
          ++ resolve (maps (instance w)) (default [] (config character)))]>
    (<[delimiter := mkConfiguration
         (configuration cd
          ++ resolve (maps (instance w)) (default [] (config delimiter)))]>
       (configurations (instance w)))))) !! kind
    = Some (mkConfiguration
              (configuration c
               ++ resolve (maps (instance w)) (default [] (config kind))))).
  { intros kind c H. destruct kind.
    - rewrite !lookup_insert_ne by done. rewrite lookup_insert_eq. congruence.
    - rewrite !lookup_insert_ne by done. rewrite lookup_insert_eq. congruence.
    - rewrite !lookup_insert_ne by done. rewrite lookup_insert_eq. congruence.
    - rewrite lookup_insert_eq. congruence. }
  split; [exact Hall|]. split; [|split; [reflexivity|split; [reflexivity|]]].
  - intros kind Hk. destruct (Hw kind) as [c H]. cbn [instance configurations].
    rewrite (Hall _ _ H), H, Hk. simpl.
    by rewrite app_nil_r, configuration_eta.
  - simpl. by rewrite <- !app_assoc.
Qed.

(** X5: [append] cannot change the answer for a symbol that the chain of a
    category already contains.  In every state of the handler's lifetime
    in which [contains] is true for a category and a symbol, after any
    [append] the [lookup] of the symbol in the category gives what it gave
    before, and [contains] is still true. *)
Theorem X5_append_does_not_override (kind : Configurations) (symbol : string)
    (config : Config) w :
  reachable w ->
  fst (MapHandler_contains kind symbol w) = Return true ->
  fst (MapHandler_append config w) = Return tt
  /\ fst (MapHandler_lookup kind symbol (snd (MapHandler_append config w)))
     = fst (MapHandler_lookup kind symbol w)
  /\ fst (MapHandler_contains kind symbol (snd (MapHandler_append config w)))
     = Return true.
Proof.
  intros Hr Hcon. destruct (reachable_configured_named _ Hr) as [Hw _].
  destruct (Hw delimiter) as [cd Hd], (Hw character) as [cc Hc],
    (Hw macro) as [cm Hm], (Hw environment) as [ce He].
  destruct (Hw kind) as [c Hk].
  rewrite (handler_contains_some _ _ _ _ Hk), contains_find in Hcon.
  rewrite (handler_lookup_some _ _ _ _ Hk), lookup_find.
  rewrite (append_spec _ _ _ _ _ _ Hd Hc Hm He).
  set (w' := mkWorld _ _ (ext w)).
  assert (Hk' : configurations (instance w') !! kind
                = Some (mkConfiguration
                          (configuration c
                           ++ resolve (maps (instance w)) (default [] (config kind))))).
  { unfold w'; simpl. destruct kind.
    - rewrite !lookup_insert_ne by done. rewrite lookup_insert_eq. congruence.
    - rewrite !lookup_insert_ne by done. rewrite lookup_insert_eq. congruence.
    - rewrite !lookup_insert_ne by done. rewrite lookup_insert_eq. congruence.
    - rewrite lookup_insert_eq. congruence. }
  split; [reflexivity|]. cbn [snd].
  rewrite (handler_lookup_some _ _ _ _ Hk'), (handler_contains_some _ _ _ _ Hk').
  rewrite lookup_find, contains_find. cbn [configuration fst].
  change (ext w') with (ext w).
  destruct (find (fun m => contains m symbol (ext w)) (configuration c)) as [m|] eqn:Hf;
    [|discriminate].
  by rewrite (find_app_found _ _ _ _ Hf).
Qed.

(** X6: [configure] followed by [append] sets up the chains that one
    [configure] sets up from the lists of both, those of the second after
    those of the first; the [append] returns normally. *)
Theorem X6_configure_then_append (first second : Config) w :
  fst (MapHandler_append second (snd (MapHandler_configure first w))) = Return tt
  /\ configurations
       (instance (snd (MapHandler_append second (snd (MapHandler_configure first w)))))
     = configurations (instance (snd (MapHandler_configure (both first second) w))).
Proof.
  rewrite !configure_spec. cbn [snd].
  erewrite append_spec; [|simpl; by simplify_map_eq..].
  split; [reflexivity|]. simpl.
  unfold built, both. simpl. rewrite !resolve_app.
  apply map_eq. intros kind. destruct kind; by simplify_map_eq.
Qed.

(** *** What a constructed chain holds and prints *)

Lemma length_resolve_warnings store (names : list string) :
  length (resolve store names) + length (warnings store names) = length names.
Proof.
  unfold resolve, warnings. induction names as [|name names IH]; [reflexivity|].
  simpl. destruct (store !! name); simpl.
  - f_equal. exact IH.
  - rewrite Nat.add_succ_r. f_equal. exact IH.
Qed.

Lemma warnings_nil store (names : list string) :
  warnings store names = []
  <-> forall name, name ∈ names -> is_Some (store !! name).
Proof.
  unfold warnings. induction names as [|name names IH]; simpl.
  - split; [|done]. intros _ name Hin. by apply elem_of_nil in Hin.
  - destruct (store !! name) as [m|] eqn:H; simpl.
    + rewrite IH. split.
      * intros Hall name' [->|Hin]%elem_of_cons; [by rewrite H | by apply Hall].
      * intros Hall name' Hin. apply Hall. by right.
    + split; [discriminate|]. intros Hall.
      destruct (Hall name) as [m Hm]; [by left | congruence].
Qed.

Lemma elem_of_resolve store (names : list string) m :
  m ∈ resolve store names <-> exists name, name ∈ names /\ store !! name = Some m.
Proof. unfold resolve. apply list_elem_of_omap. Qed.

(** X7: the constructor of a configuration returns normally and leaves no
    name out in silence: the entries of the chain and the lines it prints
    are together as many as the names.  It prints nothing exactly when the
    store has every name, and every entry is the map that the store has
    under one of the names. *)
Theorem X7_every_name_added_or_warned (names : list string) w :
  exists c lines,
    Configuration_constructor names w
    = (Return c, set_console (fun out => out ++ lines) w)
    /\ length (configuration c) + length lines = length names
    /\ (lines = []
        <-> forall name, name ∈ names -> is_Some (maps (instance w) !! name))
    /\ (forall m,
          m ∈ configuration c
          <-> exists name, name ∈ names /\ maps (instance w) !! name = Some m).
Proof.
  exists (mkConfiguration (resolve (maps (instance w)) names)),
         (warnings (maps (instance w)) names).
  split; [|split; [|split]].
  - unfold Configuration_constructor. by rewrite add_each_spec.
  - apply length_resolve_warnings.
  - apply warnings_nil.
  - intros m. apply elem_of_resolve.
Qed.

Lemma string_app_assoc (a b d : string) : (a +:+ b) +:+ d = a +:+ (b +:+ d).
Proof.
  induction a as [|x a IH]; [reflexivity|].
  change (String x ((a +:+ b) +:+ d) = String x (a +:+ (b +:+ d))).
  by rewrite IH.
Qed.

Lemma concat_snoc (sep x y : string) (l : list string) :
  String.concat sep ((x :: l) ++ [y]) = String.concat sep (x :: l) +:+ sep +:+ y.
Proof.
  revert x. induction l as [|z l IH]; intros x; [reflexivity|].
  change (String.concat sep ((x :: z :: l) ++ [y]))
    with (x +:+ sep +:+ String.concat sep ((z :: l) ++ [y])).
  rewrite IH.
  change (String.concat sep (x :: z :: l))
    with (x +:+ sep +:+ String.concat sep (z :: l)).
  by rewrite !string_app_assoc.
Qed.

(** X8: [Configuration.toString] of a chain without entries is the empty
    string; [add] of a registered name to an empty chain makes it the name
    of the map, and to a chain with entries appends [', '] and the name.
    When every map is stored under its own name, the string of a newly
    constructed configuration is the registered names of the list, as the
    list has them, joined by [', ']. *)
Theorem X8_toString_lists_the_names w :
  Configuration_toString (mkConfiguration ([] : list (SymbolMap ParseInput T Fragment Err Ext))) = ""
  /\ (forall c m,
        configuration c = [] -> Configuration_toString (push c m) = getName m)
  /\ (forall c m,
        configuration c <> [] ->
        Configuration_toString (push c m)
        = Configuration_toString c +:+ ", " +:+ getName m)
  /\ (forall names,
        named w ->
        exists c w',
          Configuration_constructor names w = (Return c, w')
          /\ Configuration_toString c
             = String.concat ", "
                 (filter (fun name => is_Some (maps (instance w) !! name)) names)).
Proof.
  split; [reflexivity|]. split; [|split].
  - intros c m H. unfold Configuration_toString, push; simpl. by rewrite H.
  - intros c m H. unfold Configuration_toString, push; simpl.
    destruct (configuration c) as [|m0 ms]; [done|].
    rewrite fmap_app. simpl. apply concat_snoc.
  - intros names Hn. eexists _, _. split.
    + unfold Configuration_constructor. by rewrite add_each_spec.
    + unfold Configuration_toString; simpl. by rewrite (resolve_names _ _ Hn).
Qed.

(** *** What the operations leave alone *)






End Handler_more.

(** * Further properties of the semantics nodes *)

Section Semantics_more.
Variables AMmlNode_defaults AMmlBaseNode_defaults : PropertyList.
Variables AMmlNode_getter AMmlBaseNode_getter : string -> option Property.

Local Ltac table_lookup :=
  repeat first
    [ rewrite lookup_insert_eq
    | rewrite lookup_insert_ne by congruence
    | rewrite lookup_singleton_eq
    | rewrite lookup_singleton_ne by congruence
    | rewrite lookup_empty ];
  try reflexivity;
  match goal with |- context [?t !! ?k] => by destruct (t !! k) end.

(** X12: [MmlAnnotation] answers every getter as [MmlAnnotationXML] does,
    the kind included, which is ['annotation-xml'] for both.  A getter that
    a class of [semantics.ts] declares hides the one of the class it
    extends; every other getter is answered by the class of [../MmlNode]
    that it extends. *)
Theorem X12_getters_resolve_along_extends (name : string) :
  getter AMmlNode_getter AMmlBaseNode_getter MmlAnnotation name
  = getter AMmlNode_getter AMmlBaseNode_getter MmlAnnotationXML name
  /\ getter AMmlNode_getter AMmlBaseNode_getter MmlAnnotation "kind"
     = Some (PString "annotation-xml")
  /\ getter AMmlNode_getter AMmlBaseNode_getter MmlSemantics "kind"
     = Some (PString "semantics")
  /\ (name <> "kind" -> name <> "notParent" ->
      getter AMmlNode_getter AMmlBaseNode_getter MmlSemantics name
      = AMmlBaseNode_getter name)
  /\ (name <> "kind" -> name <> "linebreakContainer" ->
      getter AMmlNode_getter AMmlBaseNode_getter MmlAnnotationXML name
      = AMmlNode_getter name).
Proof.
  unfold getter. split; [|split; [reflexivity|split; [reflexivity|split]]].
  - cbn [getter_within own_getter extends].
    destruct (decide (name = "kind")); [reflexivity|].
    destruct (decide (name = "linebreakContainer")); [reflexivity|].
    by destruct (AMmlNode_getter name).
  - intros H1 H2. cbn [getter_within own_getter extends].
    rewrite !decide_False by done. by destruct (AMmlBaseNode_getter name).
  - intros H1 H2. cbn [getter_within own_getter extends].
    rewrite !decide_False by done. by destruct (AMmlNode_getter name).
Qed.

(** X13: loading [semantics.ts] leaves every object of the heap as it is
    and builds two new tables, at different addresses.  The table of
    [MmlSemantics] is the table of [AMmlBaseNode] with [definitionUrl] and
    [encoding] set to [null]; the table of [MmlAnnotationXML] is the table
    of [AMmlNode] with the five defaults set: a declared entry replaces an
    entry of the same name, every other entry is taken over.  Assigning to
    one of the two tables leaves the other. *)
Theorem X13_static_defaults_overlay (h0 : Heap) :
  let '(st, h) := load AMmlNode_defaults AMmlBaseNode_defaults h0 in
  (forall l, l < length h0 -> h !! l = h0 !! l)
  /\ length h0 <= MmlSemantics_defaults st
  /\ MmlSemantics_defaults st < MmlAnnotationXML_defaults st
  /\ h !! MmlSemantics_defaults st
     = Some ({[ "definitionUrl" := PNull; "encoding" := PNull ]}
             ∪ AMmlBaseNode_defaults)
  /\ h !! MmlAnnotationXML_defaults st
     = Some (list_to_map annotation_defaults ∪ AMmlNode_defaults)
  /\ (forall key v,
        assign (MmlSemantics_defaults st) key v h !! MmlAnnotationXML_defaults st
        = h !! MmlAnnotationXML_defaults st
        /\ assign (MmlAnnotationXML_defaults st) key v h !! MmlSemantics_defaults st
           = h !! MmlSemantics_defaults st).
Proof.
  rewrite load_spec. cbn [MmlSemantics_defaults MmlAnnotationXML_defaults].
  split; [|split; [lia|split; [lia|split; [|split]]]].
  - intros l Hl. rewrite <- app_assoc. by rewrite lookup_app_l.
  - rewrite lookup_app_l by (rewrite length_app; simpl; lia).
    rewrite lookup_app_r, Nat.sub_diag by done. simpl. f_equal.
    apply map_eq. intros key. rewrite lookup_union.
    destruct (decide (key = "encoding")) as [->|]; [table_lookup|].
    destruct (decide (key = "definitionUrl")) as [->|]; table_lookup.
  - rewrite lookup_app_r by (rewrite length_app; simpl; lia).
    rewrite length_app. simpl.
    replace (S (length h0) - (length h0 + 1)) with 0 by lia. simpl. f_equal.
    apply map_eq. intros key. rewrite lookup_union.
    unfold annotation_defaults; simpl.
    destruct (decide (key = "src")) as [->|]; [table_lookup|].
    destruct (decide (key = "name")) as [->|]; [table_lookup|].
    destruct (decide (key = "cd")) as [->|]; [table_lookup|].
    destruct (decide (key = "encoding")) as [->|]; [table_lookup|].
    destruct (decide (key = "definitionUrl")) as [->|]; table_lookup.
  - intros key v. split; apply lookup_assign_ne; lia.
Qed.

End Semantics_more.


(** The chain of [silent] and [loud] contains [x], and [lookup] gives for
    it the value of a map of the chain. *)
Lemma X3_witness :
  existsb (fun m : DemoMap => contains m "x" (ext fresh)) [silent; loud] = true
  /\ exists m : DemoMap,
       m ∈ [silent; loud] /\ contains m "x" (ext fresh) = true
       /\ Configuration_lookup "x" (mkConfiguration [silent; loud]) fresh
          = (Return (lookup m "x" (ext fresh)), fresh).
Proof.
  split; [reflexivity|].
  exact (proj2 (proj2 (X3_contains_when_some_map_contains
                         "x" (mkConfiguration [silent; loud]) fresh)) eq_refl).
Defined.

(** On the new handler, appending an unregistered name for the macros
    returns and leaves the chain of the characters. *)
Lemma X4_witness :
  configured fresh
  /\ exists w',
       MapHandler_append (only macro ["foo"]) fresh = (Return tt, w')
       /\ configurations (instance w') !! character
          = configurations (instance fresh) !! character.
Proof.
  assert (H : configured fresh) by apply reachable_configured_named, reachable_new.
  split; [exact H|].
  destruct (X4_append_extends_every_chain (only macro ["foo"]) fresh H)
    as (w' & H1 & _ & H2 & _).
  exists w'. split; [exact H1|]. exact (H2 character eq_refl).
Defined.

(** With [loud] in the chain of the characters, appending [silent], which
    contains [x] too, leaves the value that [lookup] gives for [x]. *)
Lemma X5_witness :
  reachable with_loud
  /\ fst (MapHandler_contains character "x" with_loud) = Return true
  /\ fst (MapHandler_lookup character "x"
            (snd (MapHandler_append (only character ["silent"]) with_loud)))
     = fst (MapHandler_lookup character "x" with_loud).
Proof.
  assert (H1 : reachable with_loud).
  { unfold with_loud, fresh. do 3 apply reachable_step. apply reachable_new. }
  assert (H2 : fst (MapHandler_contains character "x" with_loud) = Return true)
    by (vm_compute; reflexivity).
  split; [exact H1|]. split; [exact H2|].
  exact (proj1 (proj2 (X5_append_does_not_override
                         character "x" (only character ["silent"]) with_loud H1 H2))).
Defined.

(** With maps stored under [a], [b] and [c], the configuration built from
    the names [a], [zz] and [c] prints as [a, c]. *)
Lemma X8_witness :
  named stocked
  /\ exists (c : Configuration string string string string (list string)) w',
       Configuration_constructor ["a"; "zz"; "c"] stocked = (Return c, w')
       /\ Configuration_toString c = "a, c".
Proof.
  assert (H : named stocked).
  { apply reachable_configured_named. unfold stocked, fresh.
    do 3 apply reachable_step. apply reachable_new. }
  split; [exact H|].
  destruct (proj2 (proj2 (proj2 (X8_toString_lists_the_names stocked)))
              ["a"; "zz"; "c"] H) as (c & w' & H1 & H2).
  exists c, w'. split; [exact H1|]. rewrite H2. vm_compute. reflexivity.
Defined.



(** With classes of [../MmlNode] that answer no getter but [texClass],
    [MmlSemantics] answers [texClass] as [AMmlBaseNode] does. *)
Lemma X12_witness :
  "texClass" <> "kind" /\ "texClass" <> "notParent"
  /\ getter (fun _ => None)
            (fun name => if String.eqb name "texClass" then Some (PString "ORD") else None)
            MmlSemantics "texClass"
     = Some (PString "ORD").
Proof.
  assert (H1 : "texClass" <> "kind") by discriminate.
  assert (H2 : "texClass" <> "notParent") by discriminate.
  split; [exact H1|]. split; [exact H2|].
  exact (proj1 (proj2 (proj2 (proj2
           (X12_getters_resolve_along_extends
              (fun _ => None)
              (fun name => if String.eqb name "texClass" then Some (PString "ORD") else None)
              "texClass")))) H1 H2).
Defined.

(** * Properties of the [Map]s with their order *)

Section JsMap_theory.
Context {K V : Type} `{Countable K}.

Implicit Types m : list (K * V).

Lemma js_get_set_eq k v m : js_get k (js_set k v m) = Some v.
Proof.
  induction m as [|[k' v'] m IH]; simpl.
  - by rewrite decide_True.
  - destruct (decide (k' = k)); simpl.
    + by rewrite decide_True.
    + by rewrite decide_False.
Qed.

Lemma js_get_set_ne k k' v m : k <> k' -> js_get k' (js_set k v m) = js_get k' m.
Proof.
  intros Hne. induction m as [|[k0 v0] m IH]; simpl.
  - by rewrite decide_False.
  - destruct (decide (k0 = k)) as [->|]; simpl.
    + by rewrite !decide_False.
    + destruct (decide (k0 = k')); [reflexivity | exact IH].
Qed.

Lemma js_get_None k m : js_get k m = None <-> k ∉ js_keys m.
Proof.
  unfold js_keys. induction m as [|[k' v'] m IH]; simpl.
  - split; [intros _; apply not_elem_of_nil | done].
  - rewrite not_elem_of_cons. destruct (decide (k' = k)) as [->|].
    + split; [discriminate | by intros [? _]].
    + rewrite IH. split; [by intros ?; split; [congruence|] | by intros [_ ?]].
Qed.

Lemma js_set_new k v m : js_get k m = None -> js_set k v m = m ++ [(k, v)].
Proof.
  induction m as [|[k' v'] m IH]; simpl; [reflexivity|].
  destruct (decide (k' = k)); [discriminate|]. intros H'. by rewrite IH.
Qed.

Lemma js_set_old k v old m :
  js_get k m = Some old ->
  exists before after,
    m = before ++ (k, old) :: after
    /\ js_set k v m = before ++ (k, v) :: after.
Proof.
  induction m as [|[k' v'] m IH]; simpl; [discriminate|].
  destruct (decide (k' = k)) as [->|].
  - intros [= ->]. by exists [], m.
  - intros Hget. destruct (IH Hget) as (before & after & -> & ->).
    by exists ((k', v') :: before), after.
Qed.

Lemma js_keys_set_old k v old m :
  js_get k m = Some old -> js_keys (js_set k v m) = js_keys m.
Proof.
  intros Hget. destruct (js_set_old k v old m Hget) as (before & after & -> & ->).
  unfold js_keys. by rewrite !fmap_app.
Qed.

Lemma js_set_to_map k v m :
  (list_to_map (js_set k v m) : gmap K V) = <[k := v]> (list_to_map m).
Proof.
  induction m as [|[k' v'] m IH]; simpl; [reflexivity|].
  destruct (decide (k' = k)) as [->|]; simpl.
  - by rewrite insert_insert_eq.
  - by rewrite IH, insert_insert_ne.
Qed.

Lemma js_get_to_map k m : js_get k m = (list_to_map m : gmap K V) !! k.
Proof.
  induction m as [|[k' v'] m IH]; simpl; [by rewrite lookup_empty|].
  destruct (decide (k' = k)) as [->|].
  - by rewrite lookup_insert_eq.
  - by rewrite lookup_insert_ne.
Qed.

Lemma js_set_NoDup k v m : NoDup (js_keys m) -> NoDup (js_keys (js_set k v m)).
Proof.
  intros Hm. destruct (js_get k m) as [old|] eqn:Hget.
  - by rewrite (js_keys_set_old _ _ _ _ Hget).
  - rewrite (js_set_new _ _ _ Hget). unfold js_keys. rewrite fmap_app. simpl.
    apply NoDup_app. split; [exact Hm|]. split; [|apply NoDup_singleton].
    intros k' Hin ->%list_elem_of_singleton. by apply js_get_None in Hget.
Qed.

End JsMap_theory.

Section Ordered_theory.
Context {ParseInput T Fragment Err Ext : Type}.

Implicit Types w : World ParseInput T Fragment Err Ext.
Implicit Types m : SymbolMap ParseInput T Fragment Err Ext.
Implicit Types store : list (string * SymbolMap ParseInput T Fragment Err Ext).
Implicit Types configs :
  list (Configurations * Configuration ParseInput T Fragment Err Ext).

(** X14: [allMaps] lists the maps in the order in which their names were
    first registered.  Registering a map under a new name puts it last;
    registering one under a name that the store has puts it where the map
    of that name stood, and moves nothing.  The list holds exactly the maps
    that [getMap] returns, and the [Map] with its order follows what
    [register] does to the store of the state. *)
Theorem X14_allMaps_in_order_of_registration m store w :
  maps (instance w) = list_to_map store ->
  NoDup (js_keys store) ->
  maps (instance (snd (MapHandler_register m w)))
  = list_to_map (register_in_order m store)
  /\ NoDup (js_keys (register_in_order m store))
  /\ (js_get (getName m) store = None ->
      MapHandler_allMaps (register_in_order m store)
      = MapHandler_allMaps store ++ [m])
  /\ (forall old,
        js_get (getName m) store = Some old ->
        exists before after,
          MapHandler_allMaps store = before ++ old :: after
          /\ MapHandler_allMaps (register_in_order m store) = before ++ m :: after)
  /\ (forall m',
        m' ∈ MapHandler_allMaps (register_in_order m store)
        <-> exists name,
              fst (MapHandler_getMap name (snd (MapHandler_register m w)))
              = Return (Some m')).
Proof.
  intros Hw Hnd. unfold register_in_order, MapHandler_allMaps, js_values.
  assert (Hw' : maps (instance (snd (MapHandler_register m w)))
                = list_to_map (js_set (getName m) m store)).
  { simpl. by rewrite js_set_to_map, Hw. }
  assert (Hnd' : NoDup (js_keys (js_set (getName m) m store)))
    by by apply js_set_NoDup.
  split; [exact Hw'|]. split; [exact Hnd'|]. split; [|split].
  - intros Hnew. rewrite (js_set_new _ _ _ Hnew). by rewrite fmap_app.
  - intros old Hold.
    destruct (js_set_old _ m _ _ Hold) as (before & after & -> & ->).
    exists (before.*2), (after.*2). by rewrite !fmap_app.
  - intros m'. unfold MapHandler_getMap, gets. cbn [fst]. rewrite Hw'.
    rewrite list_elem_of_fmap. split.
    + intros [[name m''] [-> Hin]]. exists name. f_equal.
      by apply elem_of_list_to_map_1.
    + intros [name [= Hname]]. exists (name, m'). split; [reflexivity|].
      by apply elem_of_list_to_map_2.
Qed.

Lemma configure_in_order_full
    (chains : Configurations -> Configuration ParseInput T Fragment Err Ext) configs :
  js_keys configs = [delimiter; character; macro; environment] ->
  configure_in_order chains configs
  = [(delimiter, chains delimiter); (character, chains character);
     (macro, chains macro); (environment, chains environment)].
Proof.
  unfold js_keys.
  destruct configs as [|[k1 v1] [|[k2 v2] [|[k3 v3] [|[k4 v4] [|? ?]]]]];
    try discriminate.
  simpl. by intros [= -> -> -> ->].
Qed.

(** X15: the [Map] of the configurations gets its four keys from the
    [configure] of the constructor, in the order [delimiter], [character],
    [macro], [environment], and no [set] of a key that it has changes the
    order.  So [toString] of the handler prints four lines in that order,
    each with the name of the category and the names of its chain; and
    the [Map] with its order follows what [configure] does to the
    configurations of the state. *)
Theorem X15_toString_lists_the_four_categories
    (chains : Configurations -> Configuration ParseInput T Fragment Err Ext) :
  js_keys (configure_in_order chains []) = [delimiter; character; macro; environment]
  /\ (forall configs kind c,
        js_keys configs = [delimiter; character; macro; environment] ->
        js_keys (js_set kind c configs) = [delimiter; character; macro; environment])
  /\ (forall configs,
        js_keys configs = [delimiter; character; macro; environment] ->
        MapHandler_toString (configure_in_order chains configs)
        = "delimiter: " +:+ Configuration_toString (chains delimiter) +:+ newline
          +:+ "character: " +:+ Configuration_toString (chains character) +:+ newline
          +:+ "macro: " +:+ Configuration_toString (chains macro) +:+ newline
          +:+ "environment: " +:+ Configuration_toString (chains environment)
          +:+ newline)
  /\ (forall configs,
        (list_to_map (configure_in_order chains configs)
         : gmap Configurations (Configuration ParseInput T Fragment Err Ext))
        = <[environment := chains environment]>
          (<[macro := chains macro]>
          (<[character := chains character]>
          (<[delimiter := chains delimiter]> (list_to_map configs))))).
Proof.
  split; [reflexivity|]. split; [|split].
  - intros configs kind c Hk.
    assert (Hin : kind ∈ js_keys configs) by (rewrite Hk; destruct kind; set_solver).
    destruct (js_get kind configs) as [old|] eqn:Hget.
    + by rewrite (js_keys_set_old _ _ _ _ Hget).
    + by apply js_get_None in Hget.
  - intros configs Hk. rewrite (configure_in_order_full _ _ Hk).
    unfold MapHandler_toString, js_keys.
    cbn [fmap list_fmap fst fold_left js_get].
    repeat first [rewrite decide_True by reflexivity
                 | rewrite decide_False by discriminate].
    rewrite !string_app_assoc. reflexivity.
  - intros configs. unfold configure_in_order. by rewrite !js_set_to_map.
Qed.

End Ordered_theory.

(** With [greek] registered before [loud], registering another map under
    [greek] puts it where the first stood. *)
Lemma X14_witness :
  maps (instance (step (Register loud) with_greek))
  = list_to_map [("greek", first_greek); ("loud", loud)]
  /\ NoDup (js_keys [("greek", first_greek); ("loud", loud)])
  /\ js_get (getName second_greek) [("greek", first_greek); ("loud", loud)]
     = Some first_greek
  /\ exists before after,
       MapHandler_allMaps [("greek", first_greek); ("loud", loud)]
       = before ++ first_greek :: after
       /\ MapHandler_allMaps
            (register_in_order second_greek [("greek", first_greek); ("loud", loud)])
          = before ++ second_greek :: after.
Proof.
  assert (H1 : maps (instance (step (Register loud) with_greek))
               = list_to_map [("greek", first_greek); ("loud", loud)])
    by (vm_compute; reflexivity).
  assert (H2 : NoDup (js_keys [("greek", first_greek); ("loud", loud)])).
  { apply (bool_decide_unpack _). vm_compute. reflexivity. }
  split; [exact H1|]. split; [exact H2|]. split; [reflexivity|].
  exact (proj1 (proj2 (proj2 (proj2 (X14_allMaps_in_order_of_registration
                                       second_greek _ _ H1 H2))))
               first_greek eq_refl).
Defined.

(** After the constructor and a [set] of the key [macro], [toString]
    prints the four categories in the order of the constructor. *)
Lemma X15_witness :
  js_keys (js_set macro (mkConfiguration [loud])
             (configure_in_order (fun _ => mkConfiguration ([] : list DemoMap)) []))
  = [delimiter; character; macro; environment]
  /\ MapHandler_toString
       (configure_in_order
          (fun kind => mkConfiguration (if decide (kind = macro) then [silent; loud] else []))
          (js_set macro (mkConfiguration [loud])
             (configure_in_order (fun _ => mkConfiguration ([] : list DemoMap)) [])))
     = "delimiter: " +:+ newline +:+ "character: " +:+ newline
       +:+ "macro: silent, loud" +:+ newline +:+ "environment: " +:+ newline.
Proof.
  assert (H : js_keys (js_set macro (mkConfiguration [loud])
                         (configure_in_order
                            (fun _ => mkConfiguration ([] : list DemoMap)) []))
              = [delimiter; character; macro; environment]) by reflexivity.
  split; [exact H|].
  exact (proj1 (proj2 (proj2 (X15_toString_lists_the_four_categories
           (fun kind => mkConfiguration (if decide (kind = macro) then [silent; loud] else []))))) _ H).
Defined.
